(** * script.js of the YouTube clone demo, embedded in Rocq

    The page script is one closure: configuration constants, a handful of
    pure utilities ([rand], [pick], [slugify], [formatViews], [timeAgo]),
    the theme manager ([applyTheme], [toggleTheme]), the demo data
    generator ([generateVideos]), the renderer ([renderCategories],
    [createVideoCard], [filterVideosByQuery], [renderVideos]), the
    debounced search ([debounce], [onSearchChange]) and [init] with the
    listeners it registers.

    Conventions of the embedding.
    - A JavaScript number that holds an integer is a [Z]; the results of
      the two floating-point operations the script performs on them
      (division and multiplication) are [double]s, a mantissa and a binary
      exponent, rounded to nearest-even at 53 bits as IEEE 754 prescribes.
      The integer inputs are taken in the safe range, at most
      [MAX_SAFE_INTEGER], where every integer is a double.
    - A JavaScript string is a [string]. Case mapping and white space are
      those of the ASCII range; other characters pass through both
      unchanged (a character outside ASCII is the bytes of its UTF-8
      encoding, which keeps substring search exact).
    - [Math.random] is an oracle: the sequence of doubles that successive
      calls return, read through a call counter.
    - The DOM is the part of it the script reads and writes: the theme
      attribute of the body, the text and title of the toggle button,
      the value of the search field, the children of the video grid and
      of the chip bar, and [localStorage] as a finite map.
    - A listener is the function it runs, applied when its event comes;
      the timers of [setTimeout] are a finite map from handles to
      deadlines and callbacks, and the event loop runs a timer only when
      it is due. The listeners of a card (its pulse on click) and the
      focus of the page are not part of the embedding. *)

From Stdlib Require Import ZArith Lia Ascii.
From Stdlib Require Import Floats.SpecFloat.
From stdpp Require Import gmap strings list pretty.

Local Open Scope Z_scope.

(** ** Numbers *)

Definition MAX_SAFE_INTEGER : Z := 2 ^ 53 - 1.

(** A non-negative finite double, of value [mant * 2 ^ expo]. *)
Record double := Double { mant : Z; expo : Z }.

(** The quotient [a / (b * 2 ^ e)] as a fraction of integers. *)
Definition scale_num (a e : Z) : Z := a * 2 ^ Z.max 0 (- e).
Definition scale_den (b e : Z) : Z := b * 2 ^ Z.max 0 e.

(** The integer nearest to [num / den], a tie going to the even one. *)
Definition round_half_even (num den : Z) : Z :=
  let q := num / den in
  let r := num mod den in
  if 2 * r <? den then q
  else if den <? 2 * r then q + 1
  else if Z.even q then q else q + 1.

(** The exponent [e] with [2 ^ 52 <= a / (b * 2 ^ e) < 2 ^ 53]. *)
Definition binade (a b : Z) : Z :=
  let e0 := Z.log2 a - Z.log2 b - 53 in
  if scale_num a e0 <? 2 ^ 53 * scale_den b e0 then e0 else e0 + 1.

(** [fl a b] is the double nearest to the rational [a / b], for [0 <= a]
    and [0 < b]: what a floating-point operation whose exact result is
    [a / b] returns. (Results stay far from overflow here, and those below
    the normal range are multiples of the least subnormal, hence exact.) *)
Definition fl (a b : Z) : double :=
  if a =? 0 then Double 0 0
  else
    let e := binade a b in
    Double (round_half_even (scale_num a e) (scale_den b e)) e.

(** [n / d] on integer-valued doubles. *)
Definition fdiv (n d : Z) : double := fl n d.

(** [x * n] for a double [x] and an integer-valued double [n]. *)
Definition fmul (x : double) (n : Z) : double :=
  fl (scale_den (mant x * n) (expo x)) (scale_num 1 (expo x)).

(** [Math.floor]. *)
Definition Math_floor (x : double) : Z := Z.shiftl (mant x) (expo x).

(** The integer nearest to [10 * x], the larger one on a tie: the digits
    that [x.toFixed(1)] prints. *)
Definition tenths (x : double) : Z :=
  (20 * scale_den (mant x) (expo x) + scale_num 1 (expo x))
    / (2 * scale_num 1 (expo x)).

(** [k] tenths in decimal notation, one digit after the point. *)
Definition one_decimal (k : Z) : string :=
  pretty (k / 10) +:+ "." +:+ pretty (k mod 10).

(** [x.toFixed(1)], for [x] below [1e21]. *)
Definition toFixed1 (x : double) : string := one_decimal (tenths x).

(** The same double in the Standard Library's IEEE 754 binary64 format. *)
Definition to_binary64 (x : double) : spec_float :=
  binary_normalize 53 1024 (mant x) (expo x) false.

(** A value that [Math.random] can return: a double in [[0, 1)]. *)
Definition unit_interval (x : double) : Prop :=
  0 <= mant x < 2 ^ 53 /\ -1074 <= expo x < 0 /\ mant x < 2 ^ (- expo x).

(** ** Strings *)

Definition code (c : ascii) : N := N_of_ascii c.

Definition lower_char (c : ascii) : ascii :=
  if ((65 <=? code c) && (code c <=? 90))%N
  then ascii_of_N (code c + 32) else c.

(** [s.toLowerCase()]. *)
Fixpoint toLowerCase (s : string) : string :=
  match s with
  | EmptyString => EmptyString
  | String c r => String (lower_char c) (toLowerCase r)
  end.

(** White space and line terminators: tab, line feed, vertical tab, form
    feed, carriage return, space. *)
Definition is_space (c : ascii) : bool :=
  (((9 <=? code c) && (code c <=? 13)) || (code c =? 32))%N.

Fixpoint trimStart (s : string) : string :=
  match s with
  | EmptyString => EmptyString
  | String c r => if is_space c then trimStart r else s
  end.

Fixpoint trimEnd (s : string) : string :=
  match s with
  | EmptyString => EmptyString
  | String c r =>
      match trimEnd r with
      | EmptyString => if is_space c then EmptyString else String c EmptyString
      | r' => String c r'
      end
  end.

(** [s.trim()]. *)
Definition trim (s : string) : string := trimEnd (trimStart s).

(** [s.startsWith(t)]. *)
Fixpoint startsWith (s t : string) {struct t} : bool :=
  match t, s with
  | EmptyString, _ => true
  | String _ _, EmptyString => false
  | String a t', String b s' => bool_decide (a = b) && startsWith s' t'
  end.

(** [s.includes(t)]. *)
Fixpoint includes (s t : string) : bool :=
  startsWith s t ||
  match s with
  | EmptyString => false
  | String _ r => includes r t
  end.

(** [pad] repeated and cut to [n] characters ([cur] is what is left of the
    current copy). *)
Fixpoint filler (n : nat) (pad cur : string) : string :=
  match n with
  | O => EmptyString
  | S k =>
      match cur, pad with
      | String c r, _ => String c (filler k pad r)
      | EmptyString, String c r => String c (filler k pad r)
      | EmptyString, EmptyString => EmptyString
      end
  end.

(** [s.padStart(targetLength, pad)]. *)
Definition padStart (s : string) (targetLength : nat) (pad : string) : string :=
  filler (targetLength - String.length s) pad pad +:+ s.

(** [/[a-z0-9]/]. *)
Definition is_slug_char (c : ascii) : bool :=
  (((97 <=? code c) && (code c <=? 122)) ||
   ((48 <=? code c) && (code c <=? 57)))%N.

(** [s.replace(/[^a-z0-9]+/g, "-")]: every maximal run of other characters
    becomes one hyphen ([in_run] says that the run has begun). *)
Fixpoint replace_runs (in_run : bool) (s : string) : string :=
  match s with
  | EmptyString => EmptyString
  | String c r =>
      if is_slug_char c then String c (replace_runs false r)
      else if in_run then replace_runs true r
      else String "-" (replace_runs true r)
  end.

Definition strip_leading_hyphen (s : string) : string :=
  match s with
  | String "-" r => r
  | _ => s
  end.

Fixpoint strip_trailing_hyphen (s : string) : string :=
  match s with
  | EmptyString => EmptyString
  | String "-" EmptyString => EmptyString
  | String c r => String c (strip_trailing_hyphen r)
  end.

(** [s.replace(/(^-|-$)/g, "")]. *)
Definition replace_edge_hyphens (s : string) : string :=
  strip_trailing_hyphen (strip_leading_hyphen s).

(** ** Config *)

Definition CATEGORIES : list string :=
  [ "All"; "Music"; "Gaming"; "News"; "Sports"; "Education"; "Comedy";
    "Technology"; "Lifestyle" ].

Definition VIDEO_COUNT : Z := 36.

(** ** Computations that call [Math.random]

    A computation reads the oracle through the number of calls made so
    far and returns its result with the new count. *)

Definition Gen (A : Type) : Type := (nat → double) → nat → A * nat.

Global Instance Gen_ret : MRet Gen := λ A a, λ _ n, (a, n).

Global Instance Gen_bind : MBind Gen :=
  λ A B f m, λ random n, let '(a, n') := m random n in f a random n'.

(** [Math.random()]. *)
Definition Math_random : Gen double := λ random n, (random n, S n).

(** ** Utilities *)

Definition rand (min max : Z) : Gen Z :=
  r ← Math_random;
  mret (Math_floor (fmul r (max - min + 1)) + min).

(** [arr[i]] is [undefined] out of range; [undefined] is the caller's
    stand-in for it. *)
Definition pick {A} (undefined : A) (arr : list A) : Gen A :=
  i ← rand 0 (Z.of_nat (length arr) - 1);
  mret (nth (Z.to_nat i) arr undefined).

Definition slugify (s : string) : string :=
  replace_edge_hyphens (replace_runs false (toLowerCase s)).

Definition formatViews (n : Z) : string :=
  if 10 ^ 9 <=? n then toFixed1 (fdiv n (10 ^ 9)) +:+ "B views"
  else if 10 ^ 6 <=? n then toFixed1 (fdiv n (10 ^ 6)) +:+ "M views"
  else if 10 ^ 3 <=? n then toFixed1 (fdiv n (10 ^ 3)) +:+ "K views"
  else pretty n +:+ " views".

Definition timeAgo (days : Z) : string :=
  if days <? 1 then "Today"
  else if days =? 1 then "1 day ago"
  else if days <? 30 then pretty days +:+ " days ago"
  else if days <? 365 then pretty (Math_floor (fdiv days 30)) +:+ " months ago"
  else pretty (Math_floor (fdiv days 365)) +:+ " years ago".

(** ** Theme *)

(** The page state that the theme manager touches. *)
Record page := Page {
  data_theme : option string;         (* the data-theme attribute of body *)
  themeToggle_textContent : string;
  themeToggle_title : string;
  localStorage : gmap string string
}.

(** How a call ends: normally, or by a [TypeError] that leaves the page
    as it was at the throw. *)
Inductive completion := Normal (p : page) | TypeError (p : page).

(** The members that every object inherits from [Object.prototype]. *)
Definition Object_prototype : list string :=
  [ "constructor"; "__defineGetter__"; "__defineSetter__"; "hasOwnProperty";
    "__lookupGetter__"; "__lookupSetter__"; "isPrototypeOf";
    "propertyIsEnumerable"; "toString"; "valueOf"; "__proto__";
    "toLocaleString" ].

(** [THEMES[theme]]: [None] is [undefined]; otherwise the [icon] and the
    [label] of the object found, each [None] when it has no such property
    (an inherited member has neither). *)
Definition THEMES (theme : string) : option (option string * option string) :=
  if decide (theme = "light") then Some (Some "🌙", Some "Switch to dark theme")
  else if decide (theme = "dark") then Some (Some "☀️", Some "Switch to light theme")
  else if decide (theme ∈ Object_prototype) then Some (None, None)
  else None.

Definition ytcl_theme : string := "ytcl_theme".

(** [textContent] turns [undefined] into the empty string, [title] into
    the string "undefined". *)
Definition applyTheme (theme : string) (p : page) : completion :=
  let p1 := Page (Some theme) (themeToggle_textContent p) (themeToggle_title p)
                 (localStorage p) in
  match THEMES theme with
  | None => TypeError p1
  | Some (icon, label) =>
      Normal (Page (Some theme) (default "" icon) (default "undefined" label)
                   (<[ytcl_theme := theme]> (localStorage p)))
  end.

(** [body.getAttribute("data-theme") || "light"]: an absent attribute and
    an empty one are both falsy. *)
Definition current_theme (p : page) : string :=
  match data_theme p with
  | Some s => if decide (s = "") then "light" else s
  | None => "light"
  end.

Definition toggleTheme (p : page) : completion :=
  let current := current_theme p in
  applyTheme (if decide (current = "light") then "dark" else "light") p.

(** ** Data generation *)

Record video := Video {
  id : string;
  title : string;
  channel : string;
  category : string;
  views : Z;
  daysAgo : Z;
  thumbUrl : string;
  avatarUrl : string;
  duration : string
}.

Definition sampleTitles : list string :=
  [ "Relaxing Lo-fi Beats"; "Top 10 JavaScript Tricks";
    "Epic Gameplay Highlights"; "Breaking News Update";
    "Daily Workout Routine"; "Stand-up Comedy Set";
    "How to Build a Portfolio"; "Gadget Review: Latest Phone";
    "Cooking: 30-minute Meals"; "Study With Me — Focus Session";
    "Travel Vlog: Hidden Gems"; "Beginner Guitar Lesson" ].

Definition sampleChannels : list string :=
  [ "TechFlow"; "DailyBeat"; "GameStream"; "NewsNow"; "FitLife";
    "LaughCast"; "LearnHub"; "GizmoLab"; "KitchenLite"; "StudyCorner";
    "Wanderer"; "AcousticSoul" ].

(** One turn of the loop: the record pushed for index [i]. *)
Definition generateVideo (i : Z) : Gen video :=
  category ← pick "undefined" (tail CATEGORIES);
  sample ← pick "undefined" sampleTitles;
  number ← rand 1 999;
  let title := sample +:+ " " +:+ pretty number in
  channel ← pick "undefined" sampleChannels;
  views ← rand 500 10000000;
  daysAgo ← rand 0 1200;
  thumbId ← rand 10 1000;
  avatarId ← rand 1 70;
  durationMin ← rand 1 20;
  durationSec ← rand 0 59;
  let duration := pretty durationMin +:+ ":" +:+ padStart (pretty durationSec) 2 "0" in
  mret {| id := "vid-" +:+ pretty i +:+ "-" +:+ slugify title;
          title := title;
          channel := channel;
          category := category;
          views := views;
          daysAgo := daysAgo;
          thumbUrl := "https://picsum.photos/id/" +:+ pretty thumbId +:+ "/480/270";
          avatarUrl := "https://i.pravatar.cc/40?img=" +:+ pretty avatarId;
          duration := duration |}.

(** [for (let i = ...; i < count; i++) arr.push(...)], with [n] turns
    left. *)
Fixpoint generateVideos_loop (n : nat) (i : Z) (arr : list video) : Gen (list video) :=
  match n with
  | O => mret arr
  | S n' =>
      v ← generateVideo i;
      generateVideos_loop n' (i + 1) (arr ++ [v])
  end.

Definition generateVideos (count : Z) : Gen (list video) :=
  generateVideos_loop (Z.to_nat count) 0 [].

(** ** Rendering *)

(** An element of the video grid. *)
Record element := Element {
  tagName : string;
  className : string;
  tabIndex : option Z;
  aria_label : option string;
  textContent : option string;        (* set through textContent *)
  innerHTML : option string           (* set through innerHTML *)
}.

Definition quot : string := String (ascii_of_N 34) EmptyString.
Definition nl : string := String (ascii_of_N 10) EmptyString.

(** [name="value"] inside a tag. *)
Definition attr (name value : string) : string :=
  name +:+ "=" +:+ quot +:+ value +:+ quot.

Definition cardHTML (v : video) : string :=
  nl +:+
  "            <div " +:+ attr "class" "thumb" +:+ " " +:+ attr "role" "img"
    +:+ " " +:+ attr "aria-label" (title v) +:+ ">" +:+ nl +:+
  "                <img " +:+ attr "loading" "lazy" +:+ " "
    +:+ attr "src" (thumbUrl v) +:+ " " +:+ attr "alt" (title v) +:+ ">" +:+ nl +:+
  "                <span " +:+ attr "class" "duration" +:+ ">" +:+ duration v
    +:+ "</span>" +:+ nl +:+
  "            </div>" +:+ nl +:+
  "            <div " +:+ attr "class" "meta" +:+ ">" +:+ nl +:+
  "                <img " +:+ attr "class" "avatar" +:+ " "
    +:+ attr "src" (avatarUrl v) +:+ " "
    +:+ attr "alt" (channel v +:+ " avatar") +:+ " "
    +:+ attr "loading" "lazy" +:+ ">" +:+ nl +:+
  "                <div " +:+ attr "class" "info" +:+ ">" +:+ nl +:+
  "                    <h3 " +:+ attr "class" "title" +:+ ">" +:+ title v
    +:+ "</h3>" +:+ nl +:+
  "                    <p " +:+ attr "class" "channel" +:+ ">" +:+ channel v
    +:+ "</p>" +:+ nl +:+
  "                    <p " +:+ attr "class" "stats" +:+ ">"
    +:+ formatViews (views v) +:+ " • " +:+ timeAgo (daysAgo v)
    +:+ "</p>" +:+ nl +:+
  "                </div>" +:+ nl +:+
  "            </div>" +:+ nl +:+
  "        ".

Definition createVideoCard (v : video) : element :=
  {| tagName := "article";
     className := "video-card";
     tabIndex := Some 0;
     aria_label := Some (title v +:+ " by " +:+ channel v);
     textContent := None;
     innerHTML := Some (cardHTML v) |}.

(** The callback of the text filter. *)
Definition matchesQuery (q : string) (v : video) : bool :=
  includes (toLowerCase (title v)) q
  || includes (toLowerCase (channel v)) q
  || includes (toLowerCase (category v)) q.

Definition filterVideosByQuery (list : list video) (query : string)
  : Datatypes.list video :=
  if decide (query = "") then list
  else
    let q := trim (toLowerCase query) in
    filter (λ v, matchesQuery q v) list.

(** The state that [renderVideos] reads and writes. *)
Record app := App {
  selectedCategory : string;
  videos : list video;
  searchInput_value : string;
  videosGrid : list element           (* the children of the grid *)
}.

(** The list that [renderVideos] goes on to render. *)
Definition visibleVideos (st : app) : list video :=
  let list := videos st in
  let list :=
    if decide (selectedCategory st ≠ "All")
    then filter (λ v, category v = selectedCategory st) list
    else list in
  let q := if decide (searchInput_value st = "") then "" else searchInput_value st in
  filterVideosByQuery list q.

Definition emptyMessage : element :=
  {| tagName := "p";
     className := "muted";
     tabIndex := None;
     aria_label := None;
     textContent := Some "No videos found matching your search.";
     innerHTML := None |}.

Definition renderVideos (st : app) : app :=
  let list := visibleVideos st in
  let grid :=
    if decide (length list = 0%nat) then [emptyMessage]
    else createVideoCard <$> list in
  App (selectedCategory st) (videos st) (searchInput_value st) grid.

(** ** Category chips *)

(** [classList] of an element: its class names, an ordered set. *)
Definition classList_add (token : string) (classes : list string) : list string :=
  if decide (token ∈ classes) then classes else classes ++ [token].

Definition classList_remove (token : string) (classes : list string) : list string :=
  filter (λ c, c ≠ token) classes.

(** [classList.toggle(token, force)]. *)
Definition classList_toggle (token : string) (force : bool)
    (classes : list string) : list string :=
  if force then classList_add token classes else classList_remove token classes.

(** A chip button, as [renderCategories] makes them; [btn_cat] is the
    category that its click listener closes over. *)
Record chip := Chip {
  btn_classList : list string;
  btn_type : string;
  btn_textContent : string;
  btn_data_category : string;
  btn_title : string;
  btn_cat : string
}.

Definition set_classList (classes : list string) (btn : chip) : chip :=
  Chip classes (btn_type btn) (btn_textContent btn) (btn_data_category btn)
       (btn_title btn) (btn_cat btn).

(** The page with its chip bar: [categoryList] holds the children of the
    bar. *)
Record ui := Ui {
  ui_app : app;
  categoryList : list chip
}.

(** The button that [renderCategories] appends for [cat]. *)
Definition createChip (selected cat : string) : chip :=
  let btn := Chip ["chip"] "button" cat cat ("Filter by " +:+ cat) cat in
  if decide (cat = selected)
  then set_classList (classList_add "active" (btn_classList btn)) btn
  else btn.

Definition renderCategories (u : ui) : ui :=
  Ui (ui_app u) (createChip (selectedCategory (ui_app u)) <$> CATEGORIES).

(** The click listener of the chip that is child [i] of the bar ([c === btn]
    holds for that child alone); a click on a child that is not there does
    nothing. *)
Definition clickChip (i : nat) (u : ui) : ui :=
  match categoryList u !! i with
  | None => u
  | Some btn =>
      let st := ui_app u in
      let st := App (btn_cat btn) (videos st) (searchInput_value st)
                    (videosGrid st) in
      let chips :=
        imap (λ j c,
                if decide ("chip" ∈ btn_classList c)
                then set_classList
                       (classList_toggle "active" (bool_decide (j = i))
                          (btn_classList c)) c
                else c)
             (categoryList u) in
      Ui (renderVideos st) chips
  end.

(** ** Search (debounced) *)

(** The timers of the window: the handle that the next [setTimeout]
    returns and, for every pending handle, the time from which it is due
    and what its callback holds. *)
Record timers (A : Type) := Timers {
  next_handle : nat;
  pending : gmap nat (Z * A)
}.
Global Arguments Timers {A} _ _.
Global Arguments next_handle {A} _.
Global Arguments pending {A} _.

(** [setTimeout(callback, delay)] at time [now]; a negative delay counts
    as none. *)
Definition setTimeout {A} (callback : A) (delay now : Z) (tm : timers A)
  : nat * timers A :=
  (next_handle tm,
   Timers (S (next_handle tm))
          (<[next_handle tm := (now + Z.max 0 delay, callback)]> (pending tm))).

(** [clearTimeout(handle)]; [None] is [undefined]. *)
Definition clearTimeout {A} (handle : option nat) (tm : timers A) : timers A :=
  match handle with
  | None => tm
  | Some h => Timers (next_handle tm) (delete h (pending tm))
  end.

(** The event loop on handle [h]: when it is pending and due, the callback
    to run and the timers without it. *)
Definition due {A} (h : nat) (now : Z) (tm : timers A) : option (A * timers A) :=
  match pending tm !! h with
  | Some (deadline, callback) =>
      if deadline <=? now
      then Some (callback, Timers (next_handle tm) (delete h (pending tm)))
      else None
  | None => None
  end.

(** A call [(...args)] of the function that [debounce(fn, wait)] returns,
    at time [now]; [t] is the variable of the closure, the callback holds
    the arguments that [fn] will be applied to, and [wait] is 300 when not
    given. *)
Definition debounce {A} (wait : option Z) (args : A) (now : Z)
    (t : option nat) (tm : timers A) : option nat * timers A :=
  let tm := clearTimeout t tm in
  let '(h, tm) := setTimeout args (default 300 wait) now tm in
  (Some h, tm).

(** What happens around a debounced function: it is called, time passes,
    the event loop turns to a timer. *)
Inductive debounce_event (A : Type) :=
  | Invoke (args : A)
  | Elapse (ms : nat)
  | TimerDue (h : nat).
Global Arguments Invoke {A} _.
Global Arguments Elapse {A} _.
Global Arguments TimerDue {A} _.

(** A debounced function at work on a state [S]: the clock, the closure's
    [t], the timers, the state that [fn] acts on, and the record of the
    calls of [fn], latest first, each with its time and arguments. *)
Record debounced (A S : Type) := Debounced {
  d_now : Z;
  d_t : option nat;
  d_timers : timers A;
  d_state : S;
  d_ran : list (Z * A)
}.
Global Arguments Debounced {A S} _ _ _ _ _.
Global Arguments d_now {A S} _.
Global Arguments d_t {A S} _.
Global Arguments d_timers {A S} _.
Global Arguments d_state {A S} _.
Global Arguments d_ran {A S} _.

Definition debounce_step {A S} (fn : A → S → S) (wait : option Z)
    (d : debounced A S) (e : debounce_event A) : debounced A S :=
  match e with
  | Invoke args =>
      let '(t, tm) := debounce wait args (d_now d) (d_t d) (d_timers d) in
      Debounced (d_now d) t tm (d_state d) (d_ran d)
  | Elapse ms =>
      Debounced (d_now d + Z.of_nat ms) (d_t d) (d_timers d) (d_state d) (d_ran d)
  | TimerDue h =>
      match due h (d_now d) (d_timers d) with
      | Some (args, tm) =>
          Debounced (d_now d) (d_t d) tm (fn args (d_state d))
                    ((d_now d, args) :: d_ran d)
      | None => d
      end
  end.

Definition debounce_run {A S} (fn : A → S → S) (wait : option Z)
    (d : debounced A S) (events : list (debounce_event A)) : debounced A S :=
  foldl (debounce_step fn wait) d events.

(** A debounced function just made: no timer yet. *)
Definition debounce_start {A S} (now : Z) (s : S) : debounced A S :=
  Debounced now None (Timers 1 ∅) s [].

(** ** The page at work *)

(** The whole state of the page: theme, chip bar and grid, the clock, the
    [t] of [onSearchChange] and the timers that [onSearchChange] sets, whose
    callbacks hold the arguments of a debounced call (the event, of which
    nothing is read).  The timers of a card's pulse act on the class of
    that card alone and are kept out of this state, as is the focus. *)
Record world := World {
  w_page : page;
  w_ui : ui;
  w_now : Z;
  w_t : option nat;
  w_timers : timers unit
}.

Definition with_app (f : app → app) (u : ui) : ui :=
  Ui (f (ui_app u)) (categoryList u).

Definition with_ui (f : ui → ui) (w : world) : world :=
  World (w_page w) (f (w_ui w)) (w_now w) (w_t w) (w_timers w).

(** The user edits the search field. *)
Definition set_searchInput_value (value : string) (st : app) : app :=
  App (selectedCategory st) (videos st) value (videosGrid st).

(** A call of [onSearchChange], which is
    [debounce(() => renderVideos(), 250)]. *)
Definition onSearchChange (w : world) : world :=
  let '(t, tm) := debounce (Some 250) tt (w_now w) (w_t w) (w_timers w) in
  World (w_page w) (w_ui w) (w_now w) t tm.

(** The page that a call of [applyTheme] leaves, returned or thrown: a
    listener that throws ends there, and the page stays as it is then. *)
Definition page_of (c : completion) : page :=
  match c with Normal p | TypeError p => p end.

(** What the listeners of [init] react to, and the two doings of the
    event loop. *)
Inductive page_event :=
  | ThemeToggleClick
  | SearchInput (value : string)
  | SearchKeydown (key : string)
  | SearchBtnClick
  | ChipClick (i : nat)
  | TimerFires (h : nat)
  | TimePasses (ms : nat).

Definition page_step (w : world) (e : page_event) : world :=
  match e with
  | ThemeToggleClick =>
      World (page_of (toggleTheme (w_page w))) (w_ui w) (w_now w) (w_t w)
            (w_timers w)
  | SearchInput value =>
      onSearchChange (with_ui (with_app (set_searchInput_value value)) w)
  | SearchKeydown key =>
      if decide (key = "Enter") then with_ui (with_app renderVideos) w else w
  | SearchBtnClick => with_ui (with_app renderVideos) w
  | ChipClick i => with_ui (clickChip i) w
  | TimerFires h =>
      match due h (w_now w) (w_timers w) with
      | Some (_, tm) =>
          World (w_page w) (with_app renderVideos (w_ui w)) (w_now w) (w_t w) tm
      | None => w
      end
  | TimePasses ms =>
      World (w_page w) (w_ui w) (w_now w + Z.of_nat ms) (w_t w) (w_timers w)
  end.

Definition page_run (w : world) (events : list page_event) : world :=
  foldl page_step w events.

(** ** Initialization *)

(** [localStorage.getItem("ytcl_theme") || "light"]. *)
Definition savedTheme (p : page) : string :=
  match localStorage p !! ytcl_theme with
  | Some s => if decide (s = "") then "light" else s
  | None => "light"
  end.

(** How [init] ends: it returns, after so many calls of [Math.random], or
    [applyTheme] throws and nothing after it runs. *)
Inductive init_result :=
  | Started (w : world) (calls : nat)
  | Aborted (w : world).

Definition world_of (r : init_result) : world :=
  match r with Started w _ | Aborted w => w end.

Definition init (random : nat → double) (w : world) : init_result :=
  match applyTheme (savedTheme (w_page w)) (w_page w) with
  | TypeError p => Aborted (World p (w_ui w) (w_now w) (w_t w) (w_timers w))
  | Normal p =>
      let '(generated, calls) := generateVideos VIDEO_COUNT random 0%nat in
      let st := ui_app (w_ui w) in
      let u := Ui (App (selectedCategory st) generated (searchInput_value st)
                       (videosGrid st))
                  (categoryList (w_ui w)) in
      let u := renderCategories u in
      let u := with_app renderVideos u in
      Started (World p u (w_now w) (w_t w) (w_timers w)) calls
  end.

(** The page as the script finds it: the category "All" and no video, as
    declared; what the document has of theme, search text, grid and chips;
    no timer. *)
Definition loaded (p : page) (value : string) (grid : list element)
    (chips : list chip) (now : Z) : world :=
  World p (Ui (App "All" [] value grid) chips) now None (Timers 1 ∅).

(** ** The vocabulary of the specification *)






(** A string with no hyphen in it. *)
Fixpoint hyphen_free (s : string) : Prop :=
  match s with
  | EmptyString => True
  | String c r => c ≠ "-"%char ∧ hyphen_free r
  end.

(** Seconds as two decimal digits, [07] for seven. *)
Definition two_digits (s : Z) : string := pretty (s / 10) +:+ pretty (s mod 10).

(** What the specification promises of a generated record. *)
Definition generated_video (v : video) : Prop :=
  category v ∈ tail CATEGORIES
  ∧ category v ≠ "All"
  ∧ 500 <= views v <= 10000000
  ∧ 0 <= daysAgo v <= 1200
  ∧ ∃ minutes seconds,
      1 <= minutes <= 20 ∧ 0 <= seconds <= 59
      ∧ duration v = pretty minutes +:+ ":" +:+ two_digits seconds.

(** [k] tenths is a tenth nearest to [n / d]: the two differ by at most
    one twentieth. *)
Definition nearest_tenth (k n d : Z) : Prop :=
  - d <= 2 * (10 * n - k * d) <= d.

(** The record that turn [k] of the loop pushes, when the loop starts at
    index [i] after [n] calls of [Math.random]: every turn makes ten. *)
Definition turn (random : nat → double) (i : Z) (n k : nat) : video :=
  (generateVideo (i + Z.of_nat k) random (n + 10 * k)%nat).1.

(** An oracle to run the generator on. *)
Definition sample_random (k : nat) : double :=
  Double ((Z.of_nat k * 7919 * 2 ^ 40 + 12345) mod 2 ^ 53) (-53).

(** A page before any theme is applied. *)
Definition blank_page : page := Page None "" "" ∅.

(** The theme that is not [t]. *)
Definition other_theme (t : string) : string :=
  if decide (t = "light") then "dark" else "light".

(** A rendered element is a video card. *)
Definition is_video_card (e : element) : Prop := className e = "video-card".

(** ** Further vocabulary *)

(** The largest double below 1, and the double 0: the two ends of what
    [Math.random] can return. *)
Definition last_before_one : double := Double (2 ^ 53 - 1) (-53).
Definition zero : double := Double 0 (-53).

(** The shape of a slug, read from the left: letters and digits of
    [is_slug_char], and single hyphens, none of them where
    [after_hyphen] holds (at the start, when asked so, and after a
    hyphen). *)
Fixpoint slug_shaped (after_hyphen : bool) (s : string) : Prop :=
  match s with
  | EmptyString => True
  | String c r =>
      if decide (c = "-"%char) then after_hyphen = false ∧ slug_shaped true r
      else is_slug_char c = true ∧ slug_shaped false r
  end.

(** Channel and title as [generateVideos] puts them together. *)
Definition generated_text (v : video) : Prop :=
  channel v ∈ sampleChannels
  ∧ ∃ sample number,
      sample ∈ sampleTitles ∧ 1 <= number <= 999
      ∧ title v = sample +:+ " " +:+ pretty number.

(** Thumbnail and avatar URLs as [generateVideos] puts them together. *)
Definition generated_urls (v : video) : Prop :=
  ∃ thumbId avatarId,
    10 <= thumbId <= 1000 ∧ 1 <= avatarId <= 70
    ∧ thumbUrl v = "https://picsum.photos/id/" +:+ pretty thumbId +:+ "/480/270"
    ∧ avatarUrl v = "https://i.pravatar.cc/40?img=" +:+ pretty avatarId.

(** The chip is shown as the selected one. *)
Definition chip_active (c : chip) : Prop := "active" ∈ btn_classList c.

(** The chip bar shows the categories in order, and the active chips are
    those of the selected category. *)
Definition chips_consistent (u : ui) : Prop :=
  btn_cat <$> categoryList u = CATEGORIES
  ∧ Forall (λ c, "chip" ∈ btn_classList c
                 ∧ (chip_active c ↔ btn_cat c = selectedCategory (ui_app u)))
           (categoryList u).

(** The page shows theme [t] throughout: attribute, toggle icon and label,
    and store entry. *)
Definition themed (t : string) (p : page) : Prop :=
  (t = "light" ∨ t = "dark")
  ∧ data_theme p = Some t
  ∧ THEMES t = Some (Some (themeToggle_textContent p), Some (themeToggle_title p))
  ∧ localStorage p !! ytcl_theme = Some t.

(** The clock and the last call, with its time and arguments, after one
    more event. *)
Definition observe {A} (seen : Z * option (Z * A)) (e : debounce_event A)
  : Z * option (Z * A) :=
  match e with
  | Invoke args => (seen.1, Some (seen.1, args))
  | Elapse ms => (seen.1 + Z.of_nat ms, seen.2)
  | TimerDue _ => seen
  end.

(** The time and the arguments of the last call among [events], which
    start at time [now]. *)
Definition last_invoke {A} (now : Z) (events : list (debounce_event A))
  : option (Z * A) :=
  (foldl observe (now, None) events).2.

Definition is_invoke {A} (e : debounce_event A) : bool :=
  match e with Invoke _ => true | _ => false end.

(** How many times the debounced function was called. *)
Definition invocations {A} (events : list (debounce_event A)) : nat :=
  length (filter (λ e, is_invoke e) events).

(** What holds of a debounced function after any events: the clock is the
    observed one, a pending timer is the one of [t] and holds the last
    call, due [wait] after it, and every call of [fn] or pending timer
    accounts for a call of its own. *)
Definition debounce_inv {A S} (fn : A → S → S) (wait : option Z) (now0 : Z)
    (s0 : S) (events : list (debounce_event A)) : Prop :=
  let d := debounce_run fn wait (debounce_start now0 s0) events in
  d_now d = (foldl observe (now0, None) events).1
  ∧ (∀ h deadline args,
       pending (d_timers d) !! h = Some (deadline, args) →
       d_t d = Some h
       ∧ ∃ T0, last_invoke now0 events = Some (T0, args)
               ∧ deadline = T0 + Z.max 0 (default 300 wait))
  ∧ (length (d_ran d) + size (pending (d_timers d)) ≤ invocations events)%nat.

(** The grid shows the results for the current category and search
    text. *)
Definition up_to_date (st : app) : Prop := renderVideos st = st.

(** Every pending timer is the one of [t], and the grid is up to date
    unless a timer is pending. *)
Definition settled (w : world) : Prop :=
  (∀ h x, pending (w_timers w) !! h = Some x → w_t w = Some h)
  ∧ (pending (w_timers w) = ∅ → up_to_date (ui_app (w_ui w))).

Definition is_toggle_click (e : page_event) : bool :=
  match e with ThemeToggleClick => true | _ => false end.

(** How many times the theme button was clicked. *)
Definition toggle_clicks (events : list page_event) : nat :=
  length (filter (λ e, is_toggle_click e) events).

(** The page that [init] makes of an empty document. *)
Definition sample_world : world :=
  world_of (init sample_random (loaded blank_page "" [] [] 0)).

(** Two keystrokes 100 milliseconds apart, then 300 milliseconds of
    rest. *)
Definition sample_keys : list (debounce_event string) :=
  [Invoke "g"; Elapse 100; Invoke "gu"; Elapse 300].

(** A document whose store holds a theme name of some other version. *)
Definition stale_page : page := Page None "" "" {[ytcl_theme := "blue"]}.

(** * Properties *)

(** ** Rounding to a double *)

Lemma round_half_even_spec num den :
  0 < den →
  2 * round_half_even num den * den - den <= 2 * num
    <= 2 * round_half_even num den * den + den.
Proof.
  intros Hden. unfold round_half_even.
  pose proof (Z.div_mod num den ltac:(lia)) as Hdm.
  pose proof (Z.mod_pos_bound num den Hden) as Hr.
  destruct (Z.ltb_spec (2 * (num mod den)) den);
    [|destruct (Z.ltb_spec den (2 * (num mod den)));
      [|destruct (Z.even (num / den))]]; nia.
Qed.

Lemma scale_num_nonpos a e : e <= 0 → scale_num a e = a * 2 ^ (- e).
Proof. intros. unfold scale_num. by rewrite Z.max_r by lia. Qed.

Lemma scale_num_nonneg a e : 0 <= e → scale_num a e = a.
Proof. intros. unfold scale_num. rewrite Z.max_l by lia. simpl. lia. Qed.

Lemma scale_den_nonneg b e : 0 <= e → scale_den b e = b * 2 ^ e.
Proof. intros. unfold scale_den. by rewrite Z.max_r by lia. Qed.

Lemma scale_den_nonpos b e : e <= 0 → scale_den b e = b.
Proof. intros. unfold scale_den. rewrite Z.max_l by lia. simpl. lia. Qed.

Lemma pow2_succ e : 0 <= e → 2 ^ (e + 1) = 2 * 2 ^ e.
Proof. intros. rewrite Z.pow_add_r by lia. lia. Qed.

(** The exponent that [binade] picks leaves a 53-bit quotient. *)
Lemma binade_spec a b :
  0 < a → 0 < b →
  2 ^ 52 * scale_den b (binade a b) <= scale_num a (binade a b)
    < 2 ^ 53 * scale_den b (binade a b).
Proof.
  intros Ha Hb. unfold binade.
  destruct (Z.log2_spec a Ha) as [HA1 HA2].
  destruct (Z.log2_spec b Hb) as [HB1 HB2].
  pose proof (Z.log2_nonneg a) as Hla. pose proof (Z.log2_nonneg b) as Hlb.
  rewrite <-Z.add_1_r, pow2_succ in HA2, HB2 by done.
  set (e0 := Z.log2 a - Z.log2 b - 53).
  assert (HA : Z.log2 a = Z.log2 b + 53 + e0) by lia.
  assert (0 < 2 ^ Z.log2 b) by (by apply Z.pow_pos_nonneg).
  destruct (Z_lt_le_dec e0 0) as [Hneg|Hpos].
  - assert (Hrel : 2 ^ Z.log2 a * 2 ^ (- e0) = 2 ^ Z.log2 b * 2 ^ 53).
    { rewrite <-!Z.pow_add_r by lia. f_equal. lia. }
    assert (Hhalf : 2 ^ (- e0) = 2 * 2 ^ (- (e0 + 1))).
    { rewrite <-pow2_succ by lia. f_equal. lia. }
    assert (0 < 2 ^ (- (e0 + 1))) by (apply Z.pow_pos_nonneg; lia).
    rewrite (scale_num_nonpos a e0), (scale_den_nonpos b e0) by lia.
    destruct (Z.ltb_spec (a * 2 ^ (- e0)) (2 ^ 53 * b)).
    + rewrite scale_num_nonpos, scale_den_nonpos by lia. nia.
    + rewrite scale_num_nonpos, scale_den_nonpos by lia. nia.
  - assert (Hrel : 2 ^ Z.log2 a = 2 ^ Z.log2 b * 2 ^ 53 * 2 ^ e0).
    { rewrite <-!Z.pow_add_r by lia. f_equal. lia. }
    assert (0 < 2 ^ e0) by (by apply Z.pow_pos_nonneg).
    rewrite (scale_num_nonneg a e0), (scale_den_nonneg b e0) by lia.
    destruct (Z.ltb_spec a (2 ^ 53 * (b * 2 ^ e0))).
    + rewrite scale_num_nonneg, scale_den_nonneg by lia. nia.
    + rewrite scale_num_nonneg, scale_den_nonneg, pow2_succ by lia. nia.
Qed.

(** Below [2 ^ 53] the exponent is not positive, and the mantissa is the
    quotient at that scale up to half a unit. *)
Lemma fl_small a b :
  0 < a → 0 < b → a < 2 ^ 53 * b →
  ∃ m E, fl a b = Double m (- E) ∧ 0 <= E ∧ 0 <= m ∧
    2 ^ 52 * b <= a * 2 ^ E ∧
    2 * m * b - b <= 2 * (a * 2 ^ E) <= 2 * m * b + b.
Proof.
  intros Ha Hb Hlt.
  pose proof (binade_spec a b Ha Hb) as Hbin.
  assert (He : binade a b <= 0).
  { destruct (Z_lt_le_dec 0 (binade a b)) as [Hpos|]; [|done].
    rewrite scale_num_nonneg, scale_den_nonneg in Hbin by lia.
    assert (2 ^ 1 <= 2 ^ binade a b) by (apply Z.pow_le_mono_r; lia).
    nia. }
  rewrite scale_num_nonpos, scale_den_nonpos in Hbin by done.
  assert (0 < 2 ^ (- binade a b)) by (apply Z.pow_pos_nonneg; lia).
  pose proof (round_half_even_spec (a * 2 ^ (- binade a b)) b Hb) as Hround.
  exists (round_half_even (a * 2 ^ (- binade a b)) b), (- binade a b).
  split.
  { unfold fl. destruct (Z.eqb_spec a 0); [lia|].
    rewrite scale_num_nonpos, scale_den_nonpos by done.
    by rewrite Z.opp_involutive. }
  repeat split; lia || nia.
Qed.

Lemma Math_floor_Double m E : 0 <= E → Math_floor (Double m (- E)) = m / 2 ^ E.
Proof.
  intros. unfold Math_floor; simpl.
  rewrite <-Z.shiftr_div_pow2 by done. unfold Z.shiftr. done.
Qed.

Lemma tenths_Double m E :
  0 <= E → tenths (Double m (- E)) = (20 * m + 2 ^ E) / (2 * 2 ^ E).
Proof.
  intros. unfold tenths; simpl.
  rewrite scale_den_nonpos, scale_num_nonpos by lia.
  rewrite Z.opp_involutive. do 2 f_equal; lia.
Qed.

(** [Math.floor(n / d)] is the integer quotient: rounding the division
    never reaches the next integer. *)
Lemma Math_floor_fdiv n d :
  0 <= n <= MAX_SAFE_INTEGER → 0 < d → Math_floor (fdiv n d) = n / d.
Proof.
  unfold MAX_SAFE_INTEGER, fdiv. intros [Hn0 Hn] Hd.
  destruct (Z.eq_dec n 0) as [->|Hne].
  { by rewrite Z.div_0_l by lia. }
  destruct (fl_small n d) as (m & E & -> & HE & Hm & Hlow & Hround); [nia..|].
  rewrite Math_floor_Double by done.
  assert (0 < 2 ^ E) by (by apply Z.pow_pos_nonneg).
  pose proof (Z.div_mod n d ltac:(lia)) as Hdm.
  pose proof (Z.mod_pos_bound n d Hd) as Hr.
  symmetry. apply Z.div_unique_pos with (r := m - 2 ^ E * (n / d)); [|lia].
  assert (d < 2 * 2 ^ E) by nia.
  split; nia.
Qed.

(** The digits of [(n / d).toFixed(1)] are a nearest tenth of the exact
    quotient, for a divisor that is a multiple of twenty: the error of the
    division is too small to carry the quotient past another tenth. *)
Lemma tenths_fdiv n d2 :
  0 < n <= MAX_SAFE_INTEGER → 0 < d2 →
  0 <= tenths (fdiv n (20 * d2))
  ∧ nearest_tenth (tenths (fdiv n (20 * d2))) n (20 * d2).
Proof.
  unfold MAX_SAFE_INTEGER, fdiv, nearest_tenth. intros [Hn0 Hn] Hd.
  destruct (fl_small n (20 * d2)) as (m & E & -> & HE & Hm & Hlow & Hround);
    [nia..|].
  rewrite tenths_Double by done.
  assert (HP : 0 < 2 ^ E) by (by apply Z.pow_pos_nonneg).
  set (P := 2 ^ E) in *. set (k := (20 * m + P) / (2 * P)).
  pose proof (Z.div_mod (20 * m + P) (2 * P) ltac:(lia)) as Hdm.
  pose proof (Z.mod_pos_bound (20 * m + P) (2 * P) ltac:(lia)) as Hr.
  fold k in Hdm.
  assert (Hk : 2 * P * k <= 20 * m + P < 2 * P * k + 2 * P) by lia.
  clear Hdm Hr.
  assert (HPd : 10 * d2 < P) by nia.
  assert (Hk1 : 2 * d2 * (2 * P * k) <= 2 * d2 * (20 * m + P)) by nia.
  assert (Hk2 : 2 * d2 * (20 * m + P) < 2 * d2 * (2 * P * k + 2 * P)) by nia.
  split; [apply Z.div_pos; lia|]. split.
  - destruct (Z_lt_le_dec (n - 2 * k * d2 + d2) 0) as [Hc|]; [|lia].
    pose proof (Z.mul_le_mono_nonneg_l (n - 2 * k * d2 + d2) (- 1) P
                  ltac:(lia) ltac:(lia)).
    nia.
  - destruct (Z_lt_le_dec d2 (n - 2 * k * d2)) as [Hc|]; [|lia].
    pose proof (Z.mul_le_mono_nonneg_l 1 (n - 2 * k * d2 - d2) P
                  ltac:(lia) ltac:(lia)).
    nia.
Qed.

(** [Math.floor(r * n)] stays below [n] for [r] in the unit interval: the
    product of the last double before 1 and [n] rounds below [n]. *)
Lemma Math_floor_fmul r n :
  unit_interval r → 0 < n < 2 ^ 53 → 0 <= Math_floor (fmul r n) < n.
Proof.
  destruct r as [mr er]. unfold unit_interval, fmul; simpl.
  intros ([Hmr0 Hmr] & [_ Her] & Hone) [Hn0 Hn].
  rewrite scale_den_nonpos, scale_num_nonpos, Z.mul_1_l by lia.
  destruct (Z.eq_dec mr 0) as [->|Hne].
  { rewrite Z.mul_0_l. unfold fl, Math_floor; simpl.
    rewrite Z.shiftl_0_r. lia. }
  assert (HD : 0 < 2 ^ (- er)) by (apply Z.pow_pos_nonneg; lia).
  set (D := 2 ^ (- er)) in *.
  assert (Hkey : mr * 2 ^ 53 <= D * (2 ^ 53 - 1)).
  { destruct (Z_le_gt_dec (- er) 53).
    - assert (D <= 2 ^ 53) by (apply Z.pow_le_mono_r; lia). nia.
    - assert (2 ^ 53 <= D) by (apply Z.pow_le_mono_r; lia). nia. }
  destruct (fl_small (mr * n) D) as (m & E & -> & HE & Hm & Hlow & Hround);
    [nia..|].
  rewrite Math_floor_Double by done.
  assert (HP : 0 < 2 ^ E) by (by apply Z.pow_pos_nonneg).
  set (P := 2 ^ E) in *.
  split; [apply Z.div_pos; lia|].
  apply Z.div_lt_upper_bound; [done|].
  destruct (Z_lt_le_dec m (P * n)) as [|Hc]; [done|exfalso].
  assert (H1 : 2 * (P * n) * D <= 2 * m * D) by nia.
  assert (H2 : n * P * (mr * 2 ^ 53) <= n * P * (D * (2 ^ 53 - 1))) by nia.
  assert (H3 : 2 ^ 52 * D < n * P * D) by nia.
  nia.
Qed.

(** [fl] against the Standard Library's binary64 division and
    multiplication, on quotients and products that the script computes. *)
Example fdiv_binary64 :
  to_binary64 <$> [fdiv 1150 1000; fdiv 364 30; fdiv 1234567 (10 ^ 6);
                   fdiv MAX_SAFE_INTEGER 365; fdiv MAX_SAFE_INTEGER (10 ^ 9)]
  = (λ '(n, d), SFdiv 53 1024 (to_binary64 (Double n 0))
                               (to_binary64 (Double d 0)))
      <$> [(1150, 1000); (364, 30); (1234567, 10 ^ 6);
           (MAX_SAFE_INTEGER, 365); (MAX_SAFE_INTEGER, 10 ^ 9)].
Proof. by vm_compute. Qed.

Example fmul_binary64 :
  to_binary64 <$> [fmul (Double (2 ^ 53 - 1) (-53)) 9999501;
                   fmul (Double 1 (-1074)) 12;
                   fmul (sample_random 3) 1201]
  = (λ '(r, n), SFmul 53 1024 (to_binary64 r) (to_binary64 (Double n 0)))
      <$> [(Double (2 ^ 53 - 1) (-53), 9999501); (Double 1 (-1074), 12);
           (sample_random 3, 1201)].
Proof. by vm_compute. Qed.

(** ** Strings *)

Lemma append_nil (b : string) : "" +:+ b = b.
Proof. done. Qed.

Lemma append_cons c (a b : string) : String c a +:+ b = String c (a +:+ b).
Proof. done. Qed.

Lemma append_assoc (a b c : string) : (a +:+ b) +:+ c = a +:+ b +:+ c.
Proof.
  induction a as [|x a IH]; [done|]. by rewrite !append_cons, IH.
Qed.

(** Two strings that agree up to their first hyphen. *)
Lemma hyphen_free_prefix_eq (a b x y : string) :
  hyphen_free a → hyphen_free b →
  a +:+ String "-" x = b +:+ String "-" y → a = b.
Proof.
  revert b. induction a as [|c a IH]; intros [|d b];
    rewrite ?append_cons, ?append_nil; simpl; try done.
  - intros _ [Hd _] [= <-]. done.
  - intros [Hc _] _ [= ->]. done.
  - intros [_ Ha] [_ Hb] [= -> Heq]. f_equal. by apply IH.
Qed.

Lemma pretty_N_char_hyphen x : pretty_N_char x ≠ "-"%char.
Proof. unfold pretty_N_char. by repeat case_match. Qed.

Lemma pretty_N_go_hyphen_free (x : N) (s : string) :
  hyphen_free s → hyphen_free (pretty_N_go x s).
Proof.
  revert s. induction (N.lt_wf_0 x) as [x _ IH]; intros s Hs.
  destruct (decide (x = 0%N)) as [->|Hx]; [by rewrite pretty_N_go_0|].
  rewrite pretty_N_go_step by lia.
  apply IH; [apply N.div_lt; lia|].
  split; [apply pretty_N_char_hyphen|done].
Qed.

(** The decimal notation of a natural number has digits only. *)
Lemma pretty_Z_hyphen_free (n : Z) : 0 <= n → hyphen_free (pretty n).
Proof.
  destruct n as [|p|p]; [done| |lia]. intros _.
  change (hyphen_free (pretty (N.pos p))). unfold pretty, pretty_N.
  case_decide; [done|]. by apply pretty_N_go_hyphen_free.
Qed.

Lemma startsWith_spec (s t : string) :
  startsWith s t = true ↔ ∃ post, s = t +:+ post.
Proof.
  revert s. induction t as [|a t IH]; intros s; simpl.
  - split; [intros _; by exists s|done].
  - destruct s as [|b s].
    + split; [done|by intros [? ?]].
    + rewrite andb_true_iff, bool_decide_eq_true, IH. split.
      * intros [-> [post ->]]. by exists post.
      * intros [post Heq]. rewrite append_cons in Heq.
        injection Heq as -> ->. eauto.
Qed.

Lemma includes_spec (s t : string) :
  includes s t = true ↔ ∃ pre post, s = pre +:+ t +:+ post.
Proof.
  induction s as [|c s IH]; simpl.
  - rewrite orb_false_r. destruct t; simpl.
    + split; [by exists "", ""|done].
    + split; [done|]. intros ([|? ?] & post & ?); done.
  - rewrite orb_true_iff, startsWith_spec, IH. split.
    + intros [[post Hpost]|(pre & post & ->)].
      * by exists "", post.
      * by exists (String c pre), post.
    + intros ([|d pre] & post & Heq).
      * left. by exists post.
      * right. rewrite append_cons in Heq.
        injection Heq as -> ->. by exists pre, post.
Qed.













Lemma padStart_two_digits (s : Z) :
  0 <= s <= 59 → padStart (pretty s) 2 "0" = two_digits s.
Proof.
  intros Hs.
  assert (Hall : Forall (λ s, padStart (pretty s) 2 "0" = two_digits s)
                        (seqZ 0 60)).
  { apply (bool_decide_unpack _). by vm_compute. }
  rewrite Forall_forall in Hall. apply Hall, elem_of_seqZ. lia.
Qed.

(** ** Formatter utilities *)

(** Settles the comparisons [a <=? b] and [a <? b] of the goal that linear
    arithmetic decides from the hypotheses. *)
Ltac settle_comparisons :=
  repeat first
    [ rewrite (proj2 (Z.leb_le _ _)) by lia
    | rewrite (proj2 (Z.leb_gt _ _)) by lia
    | rewrite (proj2 (Z.ltb_lt _ _)) by lia
    | rewrite (proj2 (Z.ltb_ge _ _)) by lia
    | rewrite (proj2 (Z.eqb_eq _ _)) by lia
    | rewrite (proj2 (Z.eqb_neq _ _)) by lia ].

Lemma toFixed1_fdiv n d2 :
  0 < n <= MAX_SAFE_INTEGER → 0 < d2 →
  ∃ k, 0 <= k ∧ nearest_tenth k n (20 * d2)
       ∧ toFixed1 (fdiv n (20 * d2)) = one_decimal k.
Proof.
  intros Hn Hd. destruct (tenths_fdiv n d2 Hn Hd) as [Hk Hnear].
  by exists (tenths (fdiv n (20 * d2))).
Qed.

(** C2. For every non-negative integer [days] (in the safe range of
    doubles), [timeAgo days] is "Today" below 1, "1 day ago" at 1,
    "N days ago" with N = days between 1 and 30, "N months ago" with
    N = floor(days / 30) from 30 to 364, and "N years ago" with
    N = floor(days / 365) from 365 on; in particular 0 gives "Today", 30
    gives "1 months ago", 364 gives "12 months ago", 365 gives
    "1 years ago" and 730 gives "2 years ago". *)
Theorem timeAgo_buckets (days : Z) :
  0 <= days <= MAX_SAFE_INTEGER →
  (days < 1 → timeAgo days = "Today")
  ∧ (days = 1 → timeAgo days = "1 day ago")
  ∧ (1 < days < 30 → timeAgo days = pretty days +:+ " days ago")
  ∧ (30 <= days < 365 → timeAgo days = pretty (days / 30) +:+ " months ago")
  ∧ (365 <= days → timeAgo days = pretty (days / 365) +:+ " years ago")
  ∧ timeAgo 0 = "Today"
  ∧ timeAgo 30 = "1 months ago"
  ∧ timeAgo 364 = "12 months ago"
  ∧ timeAgo 365 = "1 years ago"
  ∧ timeAgo 730 = "2 years ago".
Proof.
  intros Hdays.
  repeat lazymatch goal with
         | |- (_ → _) ∧ _ =>
             split; [intros Hcase; unfold timeAgo; settle_comparisons|]
         end.
  - done.
  - by subst days.
  - done.
  - by rewrite Math_floor_fdiv by lia.
  - by rewrite Math_floor_fdiv by lia.
  - by vm_compute.
Qed.

Lemma timeAgo_buckets_witness :
  timeAgo 45 = pretty (45 / 30) +:+ " months ago".
Proof.
  refine (proj1 (proj2 (proj2 (proj2 (timeAgo_buckets 45 _)))) _);
    unfold MAX_SAFE_INTEGER; lia.
Defined.

(** C3. For every non-negative integer [n] (in the safe range of doubles),
    [formatViews n] is [n] in decimal followed by " views" below 1e3, and
    otherwise [n] divided by 1e3, 1e6 or 1e9, the threshold that [n] has
    reached, printed with exactly one decimal (a tenth nearest to the
    quotient) and followed by "K views", "M views" or "B views"; in
    particular 1000 gives "1.0K views", 1000000 gives "1.0M views" and 500
    gives "500 views". *)
Theorem formatViews_thresholds (n : Z) :
  0 <= n <= MAX_SAFE_INTEGER →
  (n < 10 ^ 3 → formatViews n = pretty n +:+ " views")
  ∧ (10 ^ 3 <= n < 10 ^ 6 →
       ∃ k, 0 <= k ∧ nearest_tenth k n (10 ^ 3)
            ∧ formatViews n = one_decimal k +:+ "K views")
  ∧ (10 ^ 6 <= n < 10 ^ 9 →
       ∃ k, 0 <= k ∧ nearest_tenth k n (10 ^ 6)
            ∧ formatViews n = one_decimal k +:+ "M views")
  ∧ (10 ^ 9 <= n →
       ∃ k, 0 <= k ∧ nearest_tenth k n (10 ^ 9)
            ∧ formatViews n = one_decimal k +:+ "B views")
  ∧ formatViews 1000 = "1.0K views"
  ∧ formatViews 1000000 = "1.0M views"
  ∧ formatViews 500 = "500 views".
Proof.
  intros Hn.
  repeat lazymatch goal with
         | |- (_ → _) ∧ _ =>
             split; [intros Hcase; unfold formatViews; settle_comparisons|]
         end.
  - done.
  - change (10 ^ 3) with (20 * 50).
    destruct (toFixed1_fdiv n 50) as (k & ? & ? & ->); [lia..|]. by exists k.
  - change (10 ^ 6) with (20 * 50000).
    destruct (toFixed1_fdiv n 50000) as (k & ? & ? & ->); [lia..|]. by exists k.
  - change (10 ^ 9) with (20 * 50000000).
    destruct (toFixed1_fdiv n 50000000) as (k & ? & ? & ->); [lia..|].
    by exists k.
  - by vm_compute.
Qed.

Lemma formatViews_thresholds_witness :
  ∃ k, 0 <= k ∧ nearest_tenth k 1234567 (10 ^ 6)
       ∧ formatViews 1234567 = one_decimal k +:+ "M views".
Proof.
  refine (proj1 (proj2 (proj2 (formatViews_thresholds 1234567 _))) _);
    unfold MAX_SAFE_INTEGER; lia.
Defined.

(** ** Filter pipeline *)

Lemma filter_all {A} (P : A → Prop) `{!∀ x, Decision (P x)} (l : list A) :
  Forall P l → filter P l = l.
Proof.
  induction 1 as [|x l Hx _ IH]; [done|].
  by rewrite filter_cons_True, IH.
Qed.



Lemma visibleVideos_unfold C L Q grid :
  visibleVideos (App C L Q grid)
  = filterVideosByQuery
      (if decide (C = "All") then L else filter (λ v, category v = C) L) Q.
Proof.
  unfold visibleVideos; simpl.
  f_equal; [by repeat case_decide|by case_decide].
Qed.


Lemma filterVideosByQuery_elem (l : list video) Q v :
  v ∈ filterVideosByQuery l Q →
  v ∈ l ∧ (Q ≠ "" → matchesQuery (trim (toLowerCase Q)) v = true).
Proof.
  unfold filterVideosByQuery. case_decide; [done|].
  rewrite list_elem_of_filter, Is_true_true. tauto.
Qed.


(** C6. For every list [L], category [C] and query [Q], the pipeline
    applied to its own result with the same [C] and [Q] returns that
    result. *)
Theorem filter_pipeline_idempotent (L : list video) (C Q : string)
    (grid grid' : list element) :
  visibleVideos (App C (visibleVideos (App C L Q grid)) Q grid')
  = visibleVideos (App C L Q grid).
Proof.
  rewrite !visibleVideos_unfold.
  set (L1 := if decide (C = "All") then L else filter (λ v, category v = C) L).
  set (R := filterVideosByQuery L1 Q).
  assert (Hcat : (if decide (C = "All") then R
                  else filter (λ v, category v = C) R) = R).
  { case_decide; [done|]. apply filter_all, Forall_forall. intros v Hv.
    apply filterVideosByQuery_elem in Hv as [Hv _].
    unfold L1 in Hv. rewrite list_elem_of_filter in Hv. tauto. }
  rewrite Hcat. unfold filterVideosByQuery at 1.
  destruct (decide (Q = "")) as [|HQ]; [done|].
  apply filter_all, Forall_forall. intros v Hv.
  apply filterVideosByQuery_elem in Hv as [_ Hv]. apply Is_true_true. auto.
Qed.



(** ** Renderer *)

(** C8. Whenever the filtered list has no element, [renderVideos] leaves
    in the grid the "no results" message alone, and so no video card and
    not an empty grid; whenever the filtered list has elements, the grid
    holds their cards, one each, and no "no results" message. *)
Theorem empty_result_handling (st : app) :
  let grid := videosGrid (renderVideos st) in
  (length (visibleVideos st) = 0%nat →
     grid = [emptyMessage]
     ∧ textContent emptyMessage = Some "No videos found matching your search."
     ∧ filter is_video_card grid = [])
  ∧ (length (visibleVideos st) ≠ 0%nat →
     grid = (createVideoCard <$> visibleVideos st)
     ∧ (emptyMessage ∉ grid)
     ∧ Forall is_video_card grid
     ∧ length grid = length (visibleVideos st)).
Proof.
  unfold renderVideos; simpl. split; intros Hlen.
  - by rewrite decide_True by done.
  - rewrite decide_False by done. split; [done|].
    split; [|split].
    + rewrite list_elem_of_fmap. intros (v & Hv & _). discriminate Hv.
    + apply Forall_fmap, Forall_true. done.
    + by rewrite length_fmap.
Qed.

Lemma empty_result_handling_witness :
  videosGrid (renderVideos (App "Gaming" [turn sample_random 0 0 0]
                                "xyz-no-match" []))
  = [emptyMessage]
  ∧ textContent emptyMessage = Some "No videos found matching your search."
  ∧ filter is_video_card
      (videosGrid (renderVideos (App "Gaming" [turn sample_random 0 0 0]
                                     "xyz-no-match" []))) = [].
Proof.
  refine (proj1 (empty_result_handling _) _). by vm_compute.
Defined.

(** ** Theme manager *)

(** Applying one of the two themes ends normally, with the icon and the
    label of the table. *)
Lemma applyTheme_known (t : string) (p : page) :
  t = "light" ∨ t = "dark" →
  ∃ icon label,
    THEMES t = Some (Some icon, Some label)
    ∧ applyTheme t p
      = Normal (Page (Some t) icon label (<[ytcl_theme := t]> (localStorage p))).
Proof.
  intros [->| ->]; do 2 eexists; (split; [reflexivity|done]).
Qed.

Lemma applyTheme_Normal (t : string) (p p' : page) :
  applyTheme t p = Normal p' →
  data_theme p' = Some t ∧ localStorage p' !! ytcl_theme = Some t.
Proof.
  unfold applyTheme. destruct (THEMES t) as [[icon label]|]; [|done].
  intros [= <-]; simpl. by rewrite lookup_insert_eq.
Qed.

Lemma toggleTheme_unfold (p : page) :
  toggleTheme p = applyTheme (other_theme (current_theme p)) p.
Proof. done. Qed.

(** C5. For each theme [t] of "light" and "dark", applying [t] and then
    toggling ends with the other theme applied; after every call of
    [toggleTheme], and after every call of [applyTheme] that returns, the
    value in the persisted store is the theme on the document attribute;
    [toggleTheme] flips the current attribute, read as "light" when it is
    absent. *)
Theorem theme_toggle (p : page) :
  (∀ t, t = "light" ∨ t = "dark" →
     ∃ p1 p2,
       applyTheme t p = Normal p1
       ∧ data_theme p1 = Some t
       ∧ localStorage p1 !! ytcl_theme = Some t
       ∧ toggleTheme p1 = Normal p2
       ∧ applyTheme (other_theme t) p1 = Normal p2
       ∧ data_theme p2 = Some (other_theme t)
       ∧ localStorage p2 !! ytcl_theme = Some (other_theme t))
  ∧ (∃ p',
       toggleTheme p = Normal p'
       ∧ localStorage p' !! ytcl_theme = data_theme p'
       ∧ (data_theme p = None → data_theme p' = Some "dark")
       ∧ (∀ c, data_theme p = Some c → c ≠ "" →
            data_theme p' = Some (other_theme c)))
  ∧ (∀ t p',
       applyTheme t p = Normal p' →
       localStorage p' !! ytcl_theme = data_theme p' ∧ data_theme p' = Some t).
Proof.
  split; [|split].
  - intros t Ht.
    destruct (applyTheme_known t p Ht) as (icon & label & _ & Hp1).
    set (p1 := Page (Some t) icon label (<[ytcl_theme:=t]> (localStorage p))) in *.
    assert (Hcur : current_theme p1 = t).
    { unfold current_theme; simpl. destruct Ht as [->| ->]; done. }
    assert (Ht' : other_theme t = "light" ∨ other_theme t = "dark").
    { destruct Ht as [->| ->]; [by right|by left]. }
    destruct (applyTheme_known (other_theme t) p1 Ht')
      as (icon' & label' & _ & Hp2).
    eexists p1, _. rewrite toggleTheme_unfold, Hcur.
    repeat split; try done.
    + simpl. by rewrite lookup_insert_eq.
    + simpl. by rewrite lookup_insert_eq.
  - assert (Ht : other_theme (current_theme p) = "light"
                 ∨ other_theme (current_theme p) = "dark").
    { unfold other_theme. case_decide; [by right|by left]. }
    destruct (applyTheme_known _ p Ht) as (icon & label & _ & Hp').
    eexists. rewrite toggleTheme_unfold. split; [exact Hp'|]. simpl.
    split; [by rewrite lookup_insert_eq|]. unfold current_theme. split.
    + by intros ->.
    + intros c -> Hc. by rewrite decide_False.
  - intros t p' Hp'. apply applyTheme_Normal in Hp' as [-> ->]. done.
Qed.

Lemma theme_toggle_witness :
  ∃ p1 p2,
    applyTheme "light" blank_page = Normal p1
    ∧ data_theme p1 = Some "light"
    ∧ localStorage p1 !! ytcl_theme = Some "light"
    ∧ toggleTheme p1 = Normal p2
    ∧ applyTheme (other_theme "light") p1 = Normal p2
    ∧ data_theme p2 = Some (other_theme "light")
    ∧ localStorage p2 !! ytcl_theme = Some (other_theme "light").
Proof. apply (proj1 (theme_toggle blank_page) "light"). by left. Defined.

(** C7. For each theme [t] of "light" and "dark", a second call of
    [applyTheme t] leaves the state that the first call made: the same
    theme attribute, toggle icon, toggle label and store. *)
Theorem applyTheme_idempotent (t : string) (p : page) :
  t = "light" ∨ t = "dark" →
  ∃ p1, applyTheme t p = Normal p1 ∧ applyTheme t p1 = Normal p1.
Proof.
  intros Ht.
  destruct (applyTheme_known t p Ht) as (icon & label & Hth & Hp1).
  eexists. split; [exact Hp1|].
  unfold applyTheme. rewrite Hth. simpl. by rewrite insert_insert_eq.
Qed.

Lemma applyTheme_idempotent_witness :
  ∃ p1, applyTheme "dark" blank_page = Normal p1
        ∧ applyTheme "dark" p1 = Normal p1.
Proof. apply applyTheme_idempotent. by right. Defined.

(** ** Data generator *)

Section generator.
(** The values that the calls of [Math.random] return, all of them in
    the unit interval. *)
Variable random : nat → double.
Hypothesis random_unit : ∀ k, unit_interval (random k).

Lemma rand_range (min max : Z) (n : nat) :
  min <= max → max - min + 1 < 2 ^ 53 →
  min <= (rand min max random n).1 <= max.
Proof using random_unit.
  intros Hle Hsmall.
  change ((rand min max random n).1)
    with (Math_floor (fmul (random n) (max - min + 1)) + min).
  pose proof (Math_floor_fmul (random n) (max - min + 1) (random_unit n)).
  lia.
Qed.

(** [pick] never reads past the end of a non-empty array. *)
Lemma pick_elem {A} (undefined : A) (arr : list A) (n : nat) :
  arr ≠ [] → Z.of_nat (length arr) < 2 ^ 53 →
  (pick undefined arr random n).1 ∈ arr.
Proof using random_unit.
  intros Hne Hlen.
  change ((pick undefined arr random n).1)
    with (nth (Z.to_nat (rand 0 (Z.of_nat (length arr) - 1) random n).1)
              arr undefined).
  assert (0 < Z.of_nat (length arr)) by (destruct arr; [done|simpl; lia]).
  pose proof (rand_range 0 (Z.of_nat (length arr) - 1) n) as Hr.
  apply list_elem_of_In, nth_In. lia.
Qed.

(** One turn of the loop calls [Math.random] ten times. *)
Lemma generateVideo_calls (i : Z) (n : nat) :
  (generateVideo i random n).2 = (n + 10)%nat.
Proof using Type.
  cbv [generateVideo pick rand Math_random mbind Gen_bind mret Gen_ret snd].
  lia.
Qed.

Lemma generateVideo_id (i : Z) (n : nat) :
  ∃ slug,
    id (generateVideo i random n).1 = "vid-" +:+ pretty i +:+ "-" +:+ slug.
Proof using Type.
  cbv [generateVideo pick rand Math_random mbind Gen_bind mret Gen_ret fst id].
  eexists. reflexivity.
Qed.

Lemma generateVideo_generated (i : Z) (n : nat) :
  generated_video (generateVideo i random n).1.
Proof using random_unit.
  pose proof (pick_elem "undefined" (tail CATEGORIES) n
                ltac:(done) ltac:(by vm_compute)) as Hcat.
  pose proof (rand_range 500 10000000 (4 + n)
                ltac:(lia) ltac:(by vm_compute)) as Hviews.
  pose proof (rand_range 0 1200 (5 + n)
                ltac:(lia) ltac:(by vm_compute)) as Hdays.
  pose proof (rand_range 1 20 (8 + n)
                ltac:(lia) ltac:(by vm_compute)) as Hmin.
  pose proof (rand_range 0 59 (9 + n)
                ltac:(lia) ltac:(by vm_compute)) as Hsec.
  revert Hcat Hviews Hdays Hmin Hsec.
  cbv [generateVideo pick rand Math_random mbind Gen_bind mret Gen_ret fst
       generated_video category views daysAgo duration Nat.add].
  intros Hcat Hviews Hdays Hmin Hsec.
  split; [exact Hcat|]. split.
  { intros Heq. rewrite Heq in Hcat. revert Hcat.
    apply (bool_decide_eq_false_1 _). by vm_compute. }
  split; [exact Hviews|]. split; [exact Hdays|].
  eexists _, _. split; [exact Hmin|]. split; [exact Hsec|].
  by rewrite padStart_two_digits.
Qed.

(** The loop in closed form. *)
Lemma generateVideos_loop_closed (turns : nat) (i : Z) (arr : list video)
    (n : nat) :
  (generateVideos_loop turns i arr random n).1
  = arr ++ (turn random i n <$> seq 0 turns).
Proof using Type.
  revert i arr n. induction turns as [|turns IH]; intros i arr n.
  - simpl. by rewrite app_nil_r.
  - change ((generateVideos_loop (S turns) i arr random n).1)
      with (let '(v, n') := generateVideo i random n in
            generateVideos_loop turns (i + 1) (arr ++ [v]) random n').1.
    pose proof (generateVideo_calls i n) as Hcalls.
    destruct (generateVideo i random n) as [v n'] eqn:Hv.
    simpl in Hcalls; subst n'. rewrite IH, <-app_assoc. f_equal.
    rewrite <-cons_seq, <-fmap_S_seq, fmap_cons, <-list_fmap_compose. simpl.
    f_equal.
    + unfold turn. rewrite Z.add_0_r, Nat.mul_0_r, Nat.add_0_r. by rewrite Hv.
    + apply list_fmap_ext. intros _ k _. unfold turn, compose.
      do 2 f_equal; lia.
Qed.

Lemma generateVideos_turns (count : Z) (n : nat) :
  (generateVideos count random n).1
  = (turn random 0 n <$> seq 0 (Z.to_nat count)).
Proof using Type.
  unfold generateVideos. by rewrite generateVideos_loop_closed.
Qed.

(** Two turns with the same id are the same turn: the ids agree up to
    the hyphen after the index, and the index is all digits. *)
Lemma turn_id_inj (n j k : nat) :
  id (turn random 0 n j) = id (turn random 0 n k) → j = k.
Proof using Type.
  unfold turn.
  destruct (generateVideo_id (0 + Z.of_nat j) (n + 10 * j)%nat) as [sj ->].
  destruct (generateVideo_id (0 + Z.of_nat k) (n + 10 * k)%nat) as [sk ->].
  intros Heq. apply (inj (String.app "vid-")) in Heq.
  apply hyphen_free_prefix_eq in Heq; [|apply pretty_Z_hyphen_free; lia..].
  apply (inj pretty) in Heq. lia.
Qed.
End generator.

Lemma sample_random_unit k : unit_interval (sample_random k).
Proof.
  unfold unit_interval, sample_random; simpl mant; simpl expo.
  pose proof (Z.mod_pos_bound (Z.of_nat k * 7919 * 2 ^ 40 + 12345) (2 ^ 53)
                ltac:(done)).
  change (2 ^ (- -53)) with (2 ^ 53). lia.
Qed.

(** C4. For every [count >= 0] and every outcome of the random choices
    (every sequence of values of [Math.random], after any number [n] of
    earlier calls), [generateVideos count] returns exactly [count] records,
    each with a category of the enumeration other than "All", views in
    [500, 10_000_000], daysAgo in [0, 1200], and a duration
    minutes:seconds with minutes in [1, 20] and seconds in 00 to 59 on two
    digits. *)
Theorem generateVideos_postconditions (random : nat → double) (count : Z)
    (n : nat) :
  (∀ k, unit_interval (random k)) → 0 <= count →
  let arr := (generateVideos count random n).1 in
  Z.of_nat (length arr) = count ∧ Forall generated_video arr.
Proof.
  intros Hrandom Hcount arr. unfold arr. rewrite generateVideos_turns.
  split.
  - rewrite length_fmap, length_seq. lia.
  - apply Forall_fmap, Forall_forall. intros k _.
    by apply generateVideo_generated.
Qed.

Lemma generateVideos_postconditions_witness :
  Z.of_nat (length (generateVideos VIDEO_COUNT sample_random 0%nat).1)
  = VIDEO_COUNT
  ∧ Forall generated_video (generateVideos VIDEO_COUNT sample_random 0%nat).1.
Proof.
  apply (generateVideos_postconditions sample_random VIDEO_COUNT 0
           sample_random_unit).
  unfold VIDEO_COUNT. lia.
Defined.

(** C10. For every [count] and every outcome of the random choices, the
    ids of the records that [generateVideos count] returns are pairwise
    distinct: the id of index [i] starts with "vid-", [i] in decimal and a
    hyphen, whatever the slug after it. *)
Theorem generated_ids_distinct (random : nat → double) (count : Z) (n : nat) :
  NoDup (id <$> (generateVideos count random n).1).
Proof.
  rewrite generateVideos_turns, <-list_fmap_compose.
  apply NoDup_fmap_2_strong; [|apply NoDup_seq].
  intros j k _ _. apply turn_id_inj.
Qed.

(** * Further properties *)

(** ** Random numbers *)

Lemma Math_floor_fmul_zero e n : Math_floor (fmul (Double 0 e) n) = 0.
Proof.
  unfold fmul; simpl. unfold scale_den. rewrite Z.mul_0_l.
  unfold fl, Math_floor; simpl. apply Z.shiftl_0_r.
Qed.

Lemma Math_floor_fmul_last n :
  0 < n < 2 ^ 53 → Math_floor (fmul last_before_one n) = n - 1.
Proof.
  intros [Hn0 Hn]. unfold fmul, last_before_one; simpl mant; simpl expo.
  rewrite scale_den_nonpos, scale_num_nonpos, Z.mul_1_l by lia.
  change (- -53) with 53.
  destruct (fl_small ((2 ^ 53 - 1) * n) (2 ^ 53))
    as (m & E & -> & HE & Hm & Hlow & Hround); [nia..|].
  rewrite Math_floor_Double by done.
  assert (HP : 0 < 2 ^ E) by (by apply Z.pow_pos_nonneg).
  set (P := 2 ^ E) in *.
  symmetry. apply Z.div_unique_pos with (r := m - P * (n - 1)); [|lia].
  split; nia.
Qed.

(** X1. [rand(min, max)] returns an integer between [min] and [max], both
    included, and calls [Math.random] once, whenever [min <= max] and the
    range has fewer than 2^53 values. *)
Theorem rand_within_bounds (random : nat → double) (min max : Z) (n : nat) :
  unit_interval (random n) → min <= max → max - min + 1 < 2 ^ 53 →
  min <= (rand min max random n).1 <= max ∧ (rand min max random n).2 = S n.
Proof.
  intros Hr Hle Hsmall. split; [|done].
  change ((rand min max random n).1)
    with (Math_floor (fmul (random n) (max - min + 1)) + min).
  pose proof (Math_floor_fmul (random n) (max - min + 1) Hr). lia.
Qed.

Lemma rand_within_bounds_witness :
  500 <= (rand 500 10000000 sample_random 4%nat).1 <= 10000000
  ∧ (rand 500 10000000 sample_random 4%nat).2 = 5%nat.
Proof.
  apply rand_within_bounds; [apply sample_random_unit|lia|by vm_compute].
Defined.

(** X2. Both ends of the range of [rand(min, max)] are reached: the draw 0
    gives [min], and the largest double below 1 gives [max]. *)
Theorem rand_reaches_both_ends (min max : Z) (n : nat) :
  min <= max → max - min + 1 < 2 ^ 53 →
  (rand min max (λ _, zero) n).1 = min
  ∧ (rand min max (λ _, last_before_one) n).1 = max
  ∧ unit_interval zero ∧ unit_interval last_before_one.
Proof.
  intros Hle Hsmall. split; [|split; [|split]].
  - change (Math_floor (fmul zero (max - min + 1)) + min = min).
    unfold zero. rewrite Math_floor_fmul_zero. lia.
  - change (Math_floor (fmul last_before_one (max - min + 1)) + min = max).
    rewrite Math_floor_fmul_last by lia. lia.
  - by vm_compute.
  - by vm_compute.
Qed.

Lemma rand_reaches_both_ends_witness :
  (rand 0 59 (λ _, zero) 0%nat).1 = 0
  ∧ (rand 0 59 (λ _, last_before_one) 0%nat).1 = 59
  ∧ unit_interval zero ∧ unit_interval last_before_one.
Proof. apply rand_reaches_both_ends; [lia|by vm_compute]. Defined.

(** X3. [pick(arr)] returns an element of a non-empty array and [undefined]
    for the empty one, with one call of [Math.random]. *)
Theorem pick_in_array {A} (random : nat → double) (undefined : A)
    (arr : list A) (n : nat) :
  unit_interval (random n) → Z.of_nat (length arr) < 2 ^ 53 →
  (arr ≠ [] → (pick undefined arr random n).1 ∈ arr)
  ∧ (arr = [] → (pick undefined arr random n).1 = undefined)
  ∧ (pick undefined arr random n).2 = S n.
Proof.
  intros Hr Hlen.
  change ((pick undefined arr random n).1)
    with (nth (Z.to_nat (Math_floor (fmul (random n)
                (Z.of_nat (length arr) - 1 - 0 + 1)) + 0)) arr undefined).
  split; [|split; [|done]].
  - intros Hne.
    assert (0 < Z.of_nat (length arr)) by (destruct arr; [done|simpl; lia]).
    pose proof (Math_floor_fmul (random n)
                  (Z.of_nat (length arr) - 1 - 0 + 1) Hr ltac:(lia)).
    apply list_elem_of_In, nth_In. lia.
  - intros ->. by destruct (Z.to_nat _).
Qed.

Lemma pick_in_array_witness :
  (sampleChannels ≠ [] → (pick "undefined" sampleChannels sample_random 3%nat).1 ∈ sampleChannels)
  ∧ (sampleChannels = [] → (pick "undefined" sampleChannels sample_random 3%nat).1 = "undefined")
  ∧ (pick "undefined" sampleChannels sample_random 3%nat).2 = 4%nat.
Proof.
  apply pick_in_array; [apply sample_random_unit|by vm_compute].
Defined.

(** ** Slugs *)

Lemma is_slug_char_hyphen : is_slug_char "-" = false.
Proof. done. Qed.


Lemma slug_shaped_cons b c r :
  slug_shaped b (String c r)
  = if decide (c = "-"%char) then b = false ∧ slug_shaped true r
    else is_slug_char c = true ∧ slug_shaped false r.
Proof. done. Qed.

Lemma slug_shaped_hyphen b r :
  slug_shaped b (String "-" r) ↔ b = false ∧ slug_shaped true r.
Proof. by rewrite slug_shaped_cons, decide_True. Qed.

Lemma slug_shaped_other b c r :
  c ≠ "-"%char →
  slug_shaped b (String c r) ↔ is_slug_char c = true ∧ slug_shaped false r.
Proof. intros. by rewrite slug_shaped_cons, decide_False. Qed.


Lemma replace_runs_shaped in_run s : slug_shaped in_run (replace_runs in_run s).
Proof.
  revert in_run. induction s as [|c r IH]; intros in_run; simpl; [done|].
  destruct (is_slug_char c) eqn:Hc.
  - apply slug_shaped_other; [by intros ->|auto].
  - destruct in_run; [apply IH|]. apply slug_shaped_hyphen. auto.
Qed.

Lemma strip_leading_hyphen_shaped s :
  slug_shaped false s → slug_shaped true (strip_leading_hyphen s).
Proof.
  destruct s as [|c r]; [done|].
  destruct (decide (c = "-"%char)) as [->|Hc].
  - rewrite slug_shaped_hyphen. simpl. tauto.
  - assert (strip_leading_hyphen (String c r) = String c r) as ->.
    { by destruct c as [[] [] [] [] [] [] [] []]. }
    by rewrite !slug_shaped_other.
Qed.

Lemma strip_trailing_hyphen_cons c r :
  strip_trailing_hyphen (String c r)
  = if decide (c = "-"%char ∧ r = "") then "" else String c (strip_trailing_hyphen r).
Proof.
  case_decide as H.
  - by destruct H as [-> ->].
  - destruct r as [|d r].
    + assert (c ≠ "-"%char) by tauto.
      by destruct c as [[] [] [] [] [] [] [] []].
    + by destruct c as [[] [] [] [] [] [] [] []].
Qed.

Lemma strip_trailing_hyphen_shaped b s :
  slug_shaped b s →
  slug_shaped b (strip_trailing_hyphen s)
  ∧ ∀ r, strip_trailing_hyphen s ≠ r +:+ "-".
Proof.
  revert b. induction s as [|c s IH]; intros b Hs.
  { split; [done|]. by intros [|? ?]. }
  rewrite strip_trailing_hyphen_cons. case_decide as Hlast.
  { split; [done|]. by intros [|? ?]. }
  rewrite slug_shaped_cons in Hs. split.
  - rewrite slug_shaped_cons.
    case_decide; destruct Hs as [H1 H2]; (split; [done|]); by apply (IH _ H2).
  - intros [|d r]; rewrite ?append_nil, ?append_cons; intros [= -> Heq].
    + rewrite decide_True in Hs by done. destruct Hs as [_ Hs].
      destruct s as [|d s]; [tauto|].
      rewrite strip_trailing_hyphen_cons in Heq. case_decide as Hd; [|done].
      destruct Hd as [-> ->]. apply slug_shaped_hyphen in Hs. by destruct Hs.
    + revert Heq. case_decide; destruct Hs as [_ Hs]; by apply (IH _ Hs).
Qed.

Lemma slugify_shaped s :
  slug_shaped true (slugify s) ∧ ∀ r, slugify s ≠ r +:+ "-".
Proof.
  unfold slugify, replace_edge_hyphens.
  apply strip_trailing_hyphen_shaped, strip_leading_hyphen_shaped,
    replace_runs_shaped.
Qed.

Lemma slug_shaped_chars b s :
  slug_shaped b s →
  Forall (λ c, is_slug_char c = true ∨ c = "-"%char) (String.list_ascii_of_string s).
Proof.
  revert b. induction s as [|c s IH]; intros b; [constructor|].
  rewrite slug_shaped_cons. simpl.
  case_decide; intros [? ?]; constructor; eauto.
Qed.

Lemma slug_shaped_no_double b s pre post :
  slug_shaped b s → s ≠ pre +:+ "--" +:+ post.
Proof.
  revert b s. induction pre as [|c pre IH]; intros b [|d s];
    rewrite ?append_nil, ?append_cons; try done.
  - intros Hs [= -> ->].
    apply slug_shaped_hyphen in Hs as [_ Hs].
    apply slug_shaped_hyphen in Hs as [? _]. done.
  - rewrite slug_shaped_cons. intros Hs [= -> Heq]. revert Heq.
    case_decide; destruct Hs as [_ Hs]; by eapply IH.
Qed.

(** X4. A slug holds lower-case letters, digits and hyphens only, neither
    starts nor ends with a hyphen, and has no two hyphens in a row. *)
Theorem slugify_shape (s : string) :
  Forall (λ c, is_slug_char c = true ∨ c = "-"%char)
         (String.list_ascii_of_string (slugify s))
  ∧ (∀ r, slugify s ≠ "-" +:+ r)
  ∧ (∀ r, slugify s ≠ r +:+ "-")
  ∧ (∀ pre post, slugify s ≠ pre +:+ "--" +:+ post).
Proof.
  destruct (slugify_shaped s) as [Hshape Hend].
  split; [by eapply slug_shaped_chars|]. split; [|split; [done|]].
  - intros r Heq. rewrite Heq in Hshape.
    change ("-" +:+ r) with (String "-" r) in Hshape.
    apply slug_shaped_hyphen in Hshape. by destruct Hshape.
  - intros pre post. by eapply slug_shaped_no_double.
Qed.





(** ** Formatters at their bounds *)

(** When [j] tenths is within a twentieth of [n / d], strictly, those are
    the digits printed. *)
Lemma toFixed1_fdiv_exact n d2 j :
  0 < n <= MAX_SAFE_INTEGER → 0 < d2 →
  - (20 * d2) < 2 * (10 * n - j * (20 * d2)) < 20 * d2 →
  toFixed1 (fdiv n (20 * d2)) = one_decimal j.
Proof.
  intros Hn Hd Hj.
  destruct (toFixed1_fdiv n d2 Hn Hd) as (k & Hk & Hnear & ->).
  unfold nearest_tenth in Hnear. f_equal.
  destruct (Z_lt_le_dec k j); [nia|]. destruct (Z_lt_le_dec j k); [nia|lia].
Qed.

(** X6. A count that is a whole number [j] of tenths of a thousand, a
    million or a billion is shown with exactly those digits: the division
    and [toFixed(1)] lose nothing. *)
Theorem formatViews_whole_tenths (j : Z) :
  (10 <= j < 10 ^ 4 → formatViews (10 ^ 2 * j) = one_decimal j +:+ "K views")
  ∧ (10 <= j < 10 ^ 4 → formatViews (10 ^ 5 * j) = one_decimal j +:+ "M views")
  ∧ (10 <= j → 10 ^ 8 * j <= MAX_SAFE_INTEGER →
     formatViews (10 ^ 8 * j) = one_decimal j +:+ "B views").
Proof.
  unfold MAX_SAFE_INTEGER.
  split; [|split]; intros; unfold formatViews; settle_comparisons.
  - change (10 ^ 3) with (20 * 50).
    by rewrite (toFixed1_fdiv_exact _ 50 j) by (unfold MAX_SAFE_INTEGER; lia).
  - change (10 ^ 6) with (20 * 50000).
    by rewrite (toFixed1_fdiv_exact _ 50000 j) by (unfold MAX_SAFE_INTEGER; lia).
  - change (10 ^ 9) with (20 * 50000000).
    by rewrite (toFixed1_fdiv_exact _ 50000000 j)
      by (unfold MAX_SAFE_INTEGER; lia).
Qed.

Lemma formatViews_whole_tenths_witness :
  formatViews (10 ^ 5 * 25) = one_decimal 25 +:+ "M views".
Proof. apply (proj1 (proj2 (formatViews_whole_tenths 25))). lia. Defined.

(** X7. Just below a million and just below a billion the lower suffix is
    kept and the number rounds up to four digits: 999950 to 999999 views
    are "1000.0K views", and 999950000 up to a billion "1000.0M views". *)
Theorem formatViews_below_threshold (n : Z) :
  (999950 <= n < 10 ^ 6 → formatViews n = "1000.0K views")
  ∧ (999950000 <= n < 10 ^ 9 → formatViews n = "1000.0M views").
Proof.
  split; intros Hn.
  - destruct (Z.eq_dec n 999950) as [->|]; [by vm_compute|].
    unfold formatViews; settle_comparisons. change (10 ^ 3) with (20 * 50).
    by rewrite (toFixed1_fdiv_exact _ 50 10000)
      by (unfold MAX_SAFE_INTEGER; lia).
  - destruct (Z.eq_dec n 999950000) as [->|]; [by vm_compute|].
    unfold formatViews; settle_comparisons. change (10 ^ 6) with (20 * 50000).
    by rewrite (toFixed1_fdiv_exact _ 50000 10000)
      by (unfold MAX_SAFE_INTEGER; lia).
Qed.

Lemma formatViews_below_threshold_witness :
  formatViews 999987 = "1000.0K views".
Proof. apply (proj1 (formatViews_below_threshold 999987)). lia. Defined.

(** X8. The count of months that [timeAgo] shows is between 1 and 12, and
    is 12 from day 360 to day 364; the count of years is at least 1. *)
Theorem timeAgo_counts (days : Z) :
  0 <= days <= MAX_SAFE_INTEGER →
  (30 <= days < 365 →
     ∃ N, 1 <= N <= 12 ∧ timeAgo days = pretty N +:+ " months ago")
  ∧ (360 <= days < 365 → timeAgo days = "12 months ago")
  ∧ (365 <= days →
     ∃ N, 1 <= N ∧ timeAgo days = pretty N +:+ " years ago").
Proof.
  intros Hdays.
  split; [|split]; intros Hcase; unfold timeAgo; settle_comparisons;
    rewrite Math_floor_fdiv by lia.
  - exists (days / 30). split; [|done].
    split; [apply Z.div_le_lower_bound; lia|].
    apply Z.lt_succ_r, Z.div_lt_upper_bound; lia.
  - assert (days / 30 = 12) as ->; [|done].
    symmetry. apply Z.div_unique_pos with (r := days - 360); lia.
  - exists (days / 365). split; [|done]. apply Z.div_le_lower_bound; lia.
Qed.

Lemma timeAgo_counts_witness : timeAgo 362 = "12 months ago".
Proof.
  refine (proj1 (proj2 (timeAgo_counts 362 _)) _); unfold MAX_SAFE_INTEGER; lia.
Defined.

(** ** Theme round trips *)

Lemma applyTheme_themed t p :
  t = "light" ∨ t = "dark" → ∃ p', applyTheme t p = Normal p' ∧ themed t p'
    ∧ ∀ k, k ≠ ytcl_theme → localStorage p' !! k = localStorage p !! k.
Proof.
  intros Ht. destruct (applyTheme_known t p Ht) as (icon & label & Hth & ->).
  eexists. split; [done|]. split.
  - unfold themed; simpl. by rewrite lookup_insert_eq.
  - intros k Hk. simpl. by rewrite lookup_insert_ne.
Qed.

Lemma themed_current t p : themed t p → current_theme p = t.
Proof.
  intros (Ht & Hattr & _). unfold current_theme. rewrite Hattr.
  by destruct Ht as [-> | ->].
Qed.

Lemma other_theme_known t :
  t = "light" ∨ t = "dark" →
  (other_theme t = "light" ∨ other_theme t = "dark")
  ∧ other_theme (other_theme t) = t.
Proof. intros [-> | ->]; (split; [|done]); [by right|by left]. Qed.

Lemma themed_unique t p p' :
  themed t p → themed t p' → localStorage p = localStorage p' → p = p'.
Proof.
  intros (_ & Ha & Hth & _) (_ & Ha' & Hth' & _) Hst.
  destruct p, p'; simpl in *. rewrite Hth in Hth'. congruence.
Qed.

Lemma toggleTheme_themed t p :
  themed t p →
  ∃ p', toggleTheme p = Normal p' ∧ themed (other_theme t) p'
        ∧ localStorage p' = <[ytcl_theme := other_theme t]> (localStorage p).
Proof.
  intros Hp. rewrite toggleTheme_unfold, (themed_current t p Hp).
  destruct Hp as (Ht & _).
  destruct (other_theme_known t Ht) as [Ht' _].
  destruct (applyTheme_known (other_theme t) p Ht') as (icon & label & Hth & ->).
  eexists. split; [done|]. split; [|done].
  unfold themed; simpl. by rewrite lookup_insert_eq.
Qed.

(** X9. On a page that shows a theme throughout, [toggleTheme] shows the
    other theme throughout, and a second [toggleTheme] gives back the page
    as it was, store included. *)
Theorem toggleTheme_involution (t : string) (p : page) :
  themed t p →
  ∃ p1, toggleTheme p = Normal p1
        ∧ themed (other_theme t) p1
        ∧ toggleTheme p1 = Normal p.
Proof.
  intros Hp.
  destruct (toggleTheme_themed t p Hp) as (p1 & H1 & Hp1 & Hst1).
  destruct (toggleTheme_themed _ p1 Hp1) as (p2 & H2 & Hp2 & Hst2).
  exists p1. split; [done|]. split; [done|]. rewrite H2. f_equal.
  pose proof Hp as (Ht & _ & _ & Hstore).
  rewrite (proj2 (other_theme_known t Ht)) in Hp2, Hst2.
  apply (themed_unique t); [done..|].
  rewrite Hst2, Hst1, insert_insert_eq. by apply insert_id.
Qed.

Lemma toggleTheme_involution_witness :
  ∃ p1, toggleTheme (page_of (applyTheme "dark" blank_page)) = Normal p1
        ∧ themed (other_theme "dark") p1
        ∧ toggleTheme p1 = Normal (page_of (applyTheme "dark" blank_page)).
Proof.
  apply toggleTheme_involution.
  unfold themed. repeat split; [by right|..]; by vm_compute.
Defined.

(** X10. [applyTheme] of a name that [THEMES] does not know throws after it
    has set the attribute: icon, label and store stay as they were.  A
    [toggleTheme] after that (the name not being empty) returns and shows
    the light theme throughout. *)
Theorem unknown_theme_then_toggle (theme : string) (p : page) :
  theme ≠ "light" → theme ≠ "dark" → theme ∉ Object_prototype →
  ∃ p1,
    applyTheme theme p = TypeError p1
    ∧ data_theme p1 = Some theme
    ∧ themeToggle_textContent p1 = themeToggle_textContent p
    ∧ themeToggle_title p1 = themeToggle_title p
    ∧ localStorage p1 = localStorage p
    ∧ (theme ≠ "" → ∃ p2, toggleTheme p1 = Normal p2 ∧ themed "light" p2).
Proof.
  intros Hl Hd Hproto. eexists. split.
  { unfold applyTheme, THEMES. by rewrite !decide_False by done. }
  simpl. repeat split. intros Hne.
  rewrite toggleTheme_unfold. unfold current_theme; simpl.
  rewrite decide_False by done. unfold other_theme.
  rewrite decide_False by done.
  destruct (applyTheme_themed "light" (Page (Some theme) (themeToggle_textContent p)
              (themeToggle_title p) (localStorage p)) ltac:(by left))
    as (p2 & -> & Hp2 & _).
  by exists p2.
Qed.

Lemma unknown_theme_then_toggle_witness :
  ∃ p1,
    applyTheme "blue" blank_page = TypeError p1
    ∧ data_theme p1 = Some "blue"
    ∧ themeToggle_textContent p1 = themeToggle_textContent blank_page
    ∧ themeToggle_title p1 = themeToggle_title blank_page
    ∧ localStorage p1 = localStorage blank_page
    ∧ ("blue" ≠ "" → ∃ p2, toggleTheme p1 = Normal p2 ∧ themed "light" p2).
Proof.
  apply unknown_theme_then_toggle; [done..|].
  apply (bool_decide_eq_false_1 _). by vm_compute.
Defined.

(** ** Generated records *)

Section generator_more.
Variable random : nat → double.
Hypothesis random_unit : ∀ k, unit_interval (random k).

Lemma generateVideo_text (i : Z) (n : nat) :
  generated_text (generateVideo i random n).1.
Proof using random_unit.
  pose proof (pick_elem random random_unit "undefined" sampleTitles (1 + n)
                ltac:(done) ltac:(by vm_compute)) as Hsample.
  pose proof (rand_range random random_unit 1 999 (2 + n)
                ltac:(lia) ltac:(by vm_compute)) as Hnumber.
  pose proof (pick_elem random random_unit "undefined" sampleChannels (3 + n)
                ltac:(done) ltac:(by vm_compute)) as Hchannel.
  revert Hsample Hnumber Hchannel.
  cbv [generateVideo pick rand Math_random mbind Gen_bind mret Gen_ret fst
       generated_text title channel Nat.add].
  intros Hsample Hnumber Hchannel.
  split; [exact Hchannel|]. eexists _, _. by split; [exact Hsample|].
Qed.

Lemma generateVideo_urls (i : Z) (n : nat) :
  generated_urls (generateVideo i random n).1.
Proof using random_unit.
  pose proof (rand_range random random_unit 10 1000 (6 + n)
                ltac:(lia) ltac:(by vm_compute)) as Hthumb.
  pose proof (rand_range random random_unit 1 70 (7 + n)
                ltac:(lia) ltac:(by vm_compute)) as Havatar.
  revert Hthumb Havatar.
  cbv [generateVideo pick rand Math_random mbind Gen_bind mret Gen_ret fst
       generated_urls thumbUrl avatarUrl Nat.add].
  intros Hthumb Havatar.
  eexists _, _. by split; [exact Hthumb|split; [exact Havatar|]].
Qed.
End generator_more.

Lemma generateVideo_id_slug random (i : Z) (n : nat) :
  id (generateVideo i random n).1
  = "vid-" +:+ pretty i +:+ "-" +:+ slugify (title (generateVideo i random n).1).
Proof. done. Qed.

Lemma generateVideos_loop_calls random (turns : nat) (i : Z) (arr : list video)
    (n : nat) :
  (generateVideos_loop turns i arr random n).2 = (n + 10 * turns)%nat.
Proof.
  revert i arr n. induction turns as [|turns IH]; intros i arr n.
  - simpl. lia.
  - change ((generateVideos_loop (S turns) i arr random n).2)
      with (let '(v, n') := generateVideo i random n in
            generateVideos_loop turns (i + 1) (arr ++ [v]) random n').2.
    pose proof (generateVideo_calls random i n) as Hcalls.
    destruct (generateVideo i random n) as [v n'].
    simpl in Hcalls; subst n'. rewrite IH. lia.
Qed.

(** X11. Every generated video has a channel of [sampleChannels], and a
    title that is a title of [sampleTitles], a space, and a number from 1
    to 999. *)
Theorem generated_titles_and_channels (random : nat → double) (count : Z)
    (n : nat) :
  (∀ k, unit_interval (random k)) →
  Forall generated_text (generateVideos count random n).1.
Proof.
  intros Hrandom. rewrite generateVideos_turns.
  apply Forall_fmap, Forall_forall. intros k _.
  by apply generateVideo_text.
Qed.

Lemma generated_titles_and_channels_witness :
  Forall generated_text (generateVideos VIDEO_COUNT sample_random 0%nat).1.
Proof. apply generated_titles_and_channels, sample_random_unit. Defined.

(** X12. Every generated video has a thumbnail URL with a picture number
    from 10 to 1000 and an avatar URL with an image number from 1 to
    70. *)
Theorem generated_image_urls (random : nat → double) (count : Z) (n : nat) :
  (∀ k, unit_interval (random k)) →
  Forall generated_urls (generateVideos count random n).1.
Proof.
  intros Hrandom. rewrite generateVideos_turns.
  apply Forall_fmap, Forall_forall. intros k _.
  by apply generateVideo_urls.
Qed.

Lemma generated_image_urls_witness :
  Forall generated_urls (generateVideos VIDEO_COUNT sample_random 0%nat).1.
Proof. apply generated_image_urls, sample_random_unit. Defined.

(** X13. The id of the video at index [k] is "vid-", [k], "-" and the slug
    of the title of that video. *)
Theorem generated_id_of_index (random : nat → double) (count : Z) (n k : nat)
    (v : video) :
  (generateVideos count random n).1 !! k = Some v →
  id v = "vid-" +:+ pretty (Z.of_nat k) +:+ "-" +:+ slugify (title v).
Proof.
  rewrite generateVideos_turns, list_lookup_fmap.
  destruct (seq 0 (Z.to_nat count) !! k) as [j|] eqn:Hj; [|done].
  apply lookup_seq in Hj as [-> _]. intros [= <-].
  unfold turn. by rewrite generateVideo_id_slug.
Qed.

Lemma generated_id_of_index_witness :
  id (turn sample_random 0 0 2)
  = "vid-" +:+ pretty (Z.of_nat 2) +:+ "-" +:+ slugify (title (turn sample_random 0 0 2)).
Proof.
  apply (generated_id_of_index sample_random VIDEO_COUNT 0 2). by vm_compute.
Defined.

(** X14. [generateVideos(count)] calls [Math.random] ten times for each
    video, whatever the draws are. *)
Theorem generateVideos_random_calls (random : nat → double) (count : Z)
    (n : nat) :
  (generateVideos count random n).2 = (n + 10 * Z.to_nat count)%nat.
Proof. apply generateVideos_loop_calls. Qed.

(** ** Search text *)




Lemma trimStart_suffix s : ∃ pre, s = pre +:+ trimStart s.
Proof.
  induction s as [|c s [pre IH]]; simpl; [by exists ""|].
  destruct (is_space c); [|by exists ""].
  exists (String c pre). by rewrite append_cons, <-IH.
Qed.

Lemma trimEnd_prefix s : ∃ post, s = trimEnd s +:+ post.
Proof.
  induction s as [|c s [post IH]]; simpl; [by exists ""|].
  destruct (trimEnd s) as [|d r].
  - destruct (is_space c); [by exists (String c s)|].
    exists s. done.
  - exists post. by rewrite append_cons, <-IH.
Qed.

Lemma includes_trim s : includes s (trim s) = true.
Proof.
  apply includes_spec. unfold trim.
  destruct (trimStart_suffix s) as [pre Hpre].
  destruct (trimEnd_prefix (trimStart s)) as [post Hpost].
  exists pre, post. by rewrite <-Hpost.
Qed.




Lemma matchesQuery_own_field s v :
  s = title v ∨ s = channel v ∨ s = category v →
  matchesQuery (trim (toLowerCase s)) v = true.
Proof.
  intros Hs. unfold matchesQuery. rewrite !orb_true_iff.
  destruct Hs as [->|[->| ->]]; auto using includes_trim.
Qed.

(** X16. A video of the list is found by its own title, by its own channel
    and by its own category, given as the query. *)
Theorem search_finds_own_text (L : list video) (v : video) :
  v ∈ L →
  v ∈ filterVideosByQuery L (title v)
  ∧ v ∈ filterVideosByQuery L (channel v)
  ∧ v ∈ filterVideosByQuery L (category v).
Proof.
  intros Hv. unfold filterVideosByQuery.
  repeat split; (case_decide; [done|]);
    apply list_elem_of_filter; (split; [|done]);
    apply Is_true_true, matchesQuery_own_field; auto.
Qed.

Lemma search_finds_own_text_witness :
  turn sample_random 0 0 1
    ∈ filterVideosByQuery [turn sample_random 0 0 0; turn sample_random 0 0 1]
        (title (turn sample_random 0 0 1))
  ∧ turn sample_random 0 0 1
    ∈ filterVideosByQuery [turn sample_random 0 0 0; turn sample_random 0 0 1]
        (channel (turn sample_random 0 0 1))
  ∧ turn sample_random 0 0 1
    ∈ filterVideosByQuery [turn sample_random 0 0 0; turn sample_random 0 0 1]
        (category (turn sample_random 0 0 1)).
Proof. apply search_finds_own_text. apply list_elem_of_In. simpl. tauto. Defined.

(** X17. [renderVideos] never leaves the grid empty, replaces what the grid
    held before, and changes nothing when called again. *)
Theorem renderVideos_stable (st : app) (grid : list element) :
  videosGrid (renderVideos st) ≠ []
  ∧ renderVideos (renderVideos st) = renderVideos st
  ∧ renderVideos (App (selectedCategory st) (videos st) (searchInput_value st) grid)
    = renderVideos st.
Proof.
  split; [|split]; [|done..].
  unfold renderVideos; simpl. case_decide as Hlen; [done|].
  destruct (visibleVideos st); done.
Qed.

(** ** Category chips *)

Lemma elem_of_classList_toggle token force classes t :
  t ∈ classList_toggle token force classes
  ↔ (t ≠ token ∧ t ∈ classes) ∨ (t = token ∧ force = true).
Proof.
  unfold classList_toggle, classList_add, classList_remove.
  destruct force.
  - case_decide as Hin.
    + split; [|intros [[_ ?]|[-> _]]; done].
      intros Ht. destruct (decide (t = token)); [by right|by left].
    + rewrite elem_of_app, list_elem_of_singleton. split.
      * intros [Ht| ->]; [left; split; [by intros ->|done]|by right].
      * intros [[_ ?]|[-> _]]; [by left|by right].
  - rewrite list_elem_of_filter. split; [by left|]. by intros [?|[_ ?]].
Qed.

Lemma CATEGORIES_NoDup : NoDup CATEGORIES.
Proof. apply (bool_decide_unpack _). by vm_compute. Qed.

Lemma createChip_spec selected cat :
  btn_cat (createChip selected cat) = cat
  ∧ btn_textContent (createChip selected cat) = cat
  ∧ btn_data_category (createChip selected cat) = cat
  ∧ "chip" ∈ btn_classList (createChip selected cat)
  ∧ (chip_active (createChip selected cat) ↔ cat = selected).
Proof.
  assert (Hno : "active" ∉ ["chip"]).
  { apply (bool_decide_eq_false_1 _). by vm_compute. }
  unfold createChip, chip_active. case_decide; simpl.
  - repeat split; try done; [by left|].
    intros _. unfold classList_add. rewrite decide_False by done.
    apply elem_of_app. right. by left.
  - repeat split; try done. by left.
Qed.

Lemma renderCategories_chips (u : ui) : chips_consistent (renderCategories u).
Proof.
  unfold chips_consistent, renderCategories; cbn [categoryList ui_app].
  set (sel := selectedCategory (ui_app u)). split.
  - rewrite <-list_fmap_compose. rewrite <-(list_fmap_id CATEGORIES) at 2.
    apply list_fmap_ext. intros _ cat _. unfold compose.
    by destruct (createChip_spec sel cat) as (? & ? & ? & _).
  - apply Forall_fmap, Forall_forall. intros cat _. unfold compose.
    destruct (createChip_spec sel cat) as (-> & _ & _ & ? & ?). done.
Qed.

(** X18. [renderCategories] fills the bar with one chip for each category,
    in the order of [CATEGORIES], with the category as text and as
    [data-category]; the active chips are those of the selected category,
    exactly one when the selected category is one of [CATEGORIES].  The
    page state is left as it is. *)
Theorem renderCategories_consistent (u : ui) :
  chips_consistent (renderCategories u)
  ∧ btn_textContent <$> categoryList (renderCategories u) = CATEGORIES
  ∧ btn_data_category <$> categoryList (renderCategories u) = CATEGORIES
  ∧ ui_app (renderCategories u) = ui_app u
  ∧ (selectedCategory (ui_app u) ∈ CATEGORIES →
     length (filter chip_active (categoryList (renderCategories u))) = 1%nat).
Proof.
  unfold renderCategories; cbn [categoryList ui_app].
  set (sel := selectedCategory (ui_app u)).
  split; [apply renderCategories_chips|split; [|split; [|split; [done|]]]].
  - rewrite <-list_fmap_compose. rewrite <-(list_fmap_id CATEGORIES) at 2.
    apply list_fmap_ext. intros _ cat _. unfold compose.
    by destruct (createChip_spec sel cat) as (? & ? & ? & _).
  - rewrite <-list_fmap_compose. rewrite <-(list_fmap_id CATEGORIES) at 2.
    apply list_fmap_ext. intros _ cat _. unfold compose.
    by destruct (createChip_spec sel cat) as (? & ? & ? & _).
  - intros Hsel. revert Hsel. generalize sel. clear. intros sel Hsel.
    repeat (apply elem_of_cons in Hsel as [->|Hsel]; [by vm_compute|]).
    by apply elem_of_nil in Hsel.
Qed.

Lemma chips_consistent_lookup u i cat :
  chips_consistent u → CATEGORIES !! i = Some cat →
  ∃ btn, categoryList u !! i = Some btn ∧ btn_cat btn = cat.
Proof.
  intros [Hcats _] Hi. rewrite <-Hcats, list_lookup_fmap in Hi.
  destruct (categoryList u !! i) as [btn|]; [|done].
  injection Hi as <-. by exists btn.
Qed.

(** The chips after a click on child [i]. *)
Lemma clickChip_chips u i btn j c :
  chips_consistent u → categoryList u !! i = Some btn →
  categoryList (clickChip i u) !! j = Some c →
  ∃ c0, categoryList u !! j = Some c0
        ∧ btn_cat c = btn_cat c0
        ∧ "chip" ∈ btn_classList c
        ∧ (chip_active c ↔ j = i).
Proof.
  intros [_ Hall] Hbtn. unfold clickChip. rewrite Hbtn. cbn [categoryList].
  rewrite list_lookup_imap.
  destruct (categoryList u !! j) as [c0|] eqn:Hc0; [|done].
  intros [= <-]. exists c0. split; [done|].
  rewrite Forall_lookup in Hall. destruct (Hall j c0 Hc0) as [Hchip _].
  rewrite decide_True by done. unfold chip_active; simpl.
  rewrite !elem_of_classList_toggle, bool_decide_eq_true.
  split; [done|]. split; [by left|]. split; [|by right].
  by intros [[? _]|[_ ?]].
Qed.

Lemma clickChip_app u i btn :
  categoryList u !! i = Some btn →
  ui_app (clickChip i u)
  = renderVideos (App (btn_cat btn) (videos (ui_app u))
                      (searchInput_value (ui_app u)) (videosGrid (ui_app u))).
Proof. intros Hbtn. unfold clickChip. by rewrite Hbtn. Qed.

(** A click keeps the chip bar in step with the selection. *)
Lemma clickChip_consistent u i :
  chips_consistent u → chips_consistent (clickChip i u).
Proof.
  intros Hcons.
  destruct (categoryList u !! i) as [btn|] eqn:Hbtn;
    [|unfold clickChip; by rewrite Hbtn].
  split.
  - pose proof Hcons as [Hcats _]. rewrite <-Hcats.
    apply list_eq. intros j. rewrite !list_lookup_fmap.
    destruct (categoryList (clickChip i u) !! j) as [c|] eqn:Hc.
    + destruct (clickChip_chips u i btn j c Hcons Hbtn Hc)
        as (c0 & Hc0 & Hcat0 & _).
      rewrite Hc0. simpl. by rewrite Hcat0.
    + revert Hc. unfold clickChip. rewrite Hbtn. cbn [categoryList].
      rewrite list_lookup_imap. by destruct (categoryList u !! j).
  - apply Forall_lookup. intros j c Hc.
    destruct (clickChip_chips u i btn j c Hcons Hbtn Hc)
      as (c0 & Hc0 & Hcat0 & Hchip & Hactive).
    split; [done|]. rewrite Hactive, (clickChip_app u i btn Hbtn), Hcat0. simpl.
    assert (CATEGORIES !! j = Some (btn_cat c0)) as Hj.
    { pose proof Hcons as [<- _]. by rewrite list_lookup_fmap, Hc0. }
    assert (CATEGORIES !! i = Some (btn_cat btn)) as Hi.
    { pose proof Hcons as [<- _]. by rewrite list_lookup_fmap, Hbtn. }
    split; [intros ->; congruence|].
    intros Heq. rewrite Heq in Hj.
    by apply (NoDup_lookup CATEGORIES j i (btn_cat btn) CATEGORIES_NoDup).
Qed.

(** X19. A click on the chip of a category selects that category, leaves
    that chip the only active one, and renders the grid for it, the search
    text being as it was. *)
Theorem clickChip_selects (u : ui) (i : nat) (cat : string) :
  chips_consistent u → CATEGORIES !! i = Some cat →
  selectedCategory (ui_app (clickChip i u)) = cat
  ∧ chips_consistent (clickChip i u)
  ∧ (∀ j c, categoryList (clickChip i u) !! j = Some c →
            (chip_active c ↔ j = i))
  ∧ ui_app (clickChip i u)
    = renderVideos (App cat (videos (ui_app u)) (searchInput_value (ui_app u))
                        (videosGrid (ui_app u))).
Proof.
  intros Hcons Hi.
  destruct (chips_consistent_lookup u i cat Hcons Hi) as (btn & Hbtn & <-).
  pose proof (clickChip_app u i btn Hbtn) as Happ.
  split; [by rewrite Happ|]. split; [by apply clickChip_consistent|].
  split; [|done]. intros j c Hc.
  by destruct (clickChip_chips u i btn j c Hcons Hbtn Hc) as (_ & _ & _ & _ & ?).
Qed.

Lemma clickChip_selects_witness :
  selectedCategory
    (ui_app (clickChip 2 (renderCategories (Ui (App "All" [] "" []) []))))
  = "Gaming"
  ∧ chips_consistent (clickChip 2 (renderCategories (Ui (App "All" [] "" []) [])))
  ∧ (∀ j c, categoryList (clickChip 2 (renderCategories (Ui (App "All" [] "" []) [])))
              !! j = Some c → (chip_active c ↔ j = 2%nat))
  ∧ ui_app (clickChip 2 (renderCategories (Ui (App "All" [] "" []) [])))
    = renderVideos (App "Gaming" [] "" []).
Proof.
  apply (clickChip_selects (renderCategories (Ui (App "All" [] "" []) [])) 2 "Gaming").
  - apply renderCategories_chips.
  - done.
Defined.

(** ** Debounced calls *)

Section debounced.
Context {A S : Type}.
Variable fn : A → S → S.
Variable wait : option Z.
Variable now0 : Z.
Variable s0 : S.

Local Abbreviation start := (debounce_start (A:=A) now0 s0).
Local Abbreviation run := (debounce_run fn wait start).

Lemma debounce_run_snoc (d : debounced A S) events e :
  debounce_run fn wait d (events ++ [e])
  = debounce_step fn wait (debounce_run fn wait d events) e.
Proof. unfold debounce_run. by rewrite foldl_app. Qed.

Lemma pending_at_most_one (m : gmap nat (Z * A)) (t : option nat) :
  (∀ h x, m !! h = Some x → t = Some h) →
  (size m ≤ 1)%nat ∧ ∀ h, t = Some h → delete h m = ∅.
Proof.
  intros Hm. assert (Hdel : ∀ h, t = Some h → delete h m = ∅).
  { intros h ->. apply map_empty. intros k.
    destruct (decide (h = k)) as [->|Hne]; [by rewrite lookup_delete_eq|].
    rewrite lookup_delete_ne by done.
    destruct (m !! k) as [x|] eqn:Hk; [|done].
    apply Hm in Hk. congruence. }
  split; [|done]. destruct t as [h|].
  - destruct (m !! h) as [x|] eqn:Hh.
    + rewrite <-(insert_delete_id m h x Hh), (Hdel h eq_refl).
      by rewrite map_size_insert_None, map_size_empty.
    + rewrite <-(delete_id m h Hh), (Hdel h eq_refl), map_size_empty. lia.
  - assert (m = ∅) as ->; [|rewrite map_size_empty; lia].
    apply map_empty. intros k. destruct (m !! k) eqn:Hk; [|done].
    by apply Hm in Hk.
Qed.

Lemma invocations_snoc (events : list (debounce_event A)) e :
  invocations (events ++ [e])
  = (invocations events + if is_invoke e then 1 else 0)%nat.
Proof.
  unfold invocations. rewrite filter_app, length_app. f_equal.
  by destruct e.
Qed.

Lemma debounce_inv_holds events : debounce_inv fn wait now0 s0 events.
Proof.
  induction events as [|e events IH] using rev_ind.
  { unfold debounce_inv; simpl. split; [done|]. split.
    - intros h deadline args Hh. by rewrite lookup_empty in Hh.
    - rewrite map_size_empty. unfold invocations. simpl. lia. }
  unfold debounce_inv, last_invoke in *.
  rewrite debounce_run_snoc, foldl_app, invocations_snoc.
  destruct IH as (Hnow & Hpending & Hcount).
  set (d := run events) in *.
  destruct (pending_at_most_one (pending (d_timers d)) (d_t d)) as [Hsize Hdel].
  { intros h [dl a] Hh. by destruct (Hpending h dl a Hh). }
  destruct e as [args|ms|h]; simpl.
  - unfold debounce, setTimeout; simpl.
    assert (Hclear : pending (clearTimeout (d_t d) (d_timers d)) = ∅).
    { destruct (d_t d) as [h|] eqn:Ht; simpl; [by apply Hdel|].
      apply map_empty. intros k.
      destruct (pending (d_timers d) !! k) as [[dl a]|] eqn:Hk; [|done].
      by destruct (Hpending k dl a Hk). }
    rewrite Hclear. split; [done|]. split.
    + intros h deadline a Hh.
      apply lookup_insert_Some in Hh as [[<- [= <- <-]]|[_ Hh]];
        [|by rewrite lookup_empty in Hh].
      split.
      * by destruct (d_t d).
      * exists (d_now d). split; [by rewrite Hnow|]. by destruct (d_t d).
    + rewrite map_size_insert_None, map_size_empty by apply lookup_empty.
      lia.
  - split; [by rewrite Hnow|]. split; [done|]. lia.
  - unfold due. destruct (pending (d_timers d) !! h) as [[dl a]|] eqn:Hh;
      [|by rewrite Nat.add_0_r].
    destruct (dl <=? d_now d); [|by rewrite Nat.add_0_r]. simpl.
    destruct (Hpending h dl a Hh) as [Ht _].
    rewrite (Hdel h Ht). split; [done|]. split.
    + intros k dl' a' Hk. by rewrite lookup_empty in Hk.
    + rewrite map_size_empty.
      assert (size (pending (d_timers d)) ≠ 0%nat).
      { apply map_size_non_empty_iff. intros Hempty.
        by rewrite Hempty, lookup_empty in Hh. }
      lia.
Qed.
End debounced.

(** A pending timer is the one that [t] names. *)
Lemma debounce_pending_owned {A S} (fn : A → S → S) (wait : option Z) (now : Z)
    (s : S) (events : list (debounce_event A)) (h : nat) (x : Z * A) :
  let d := debounce_run fn wait (debounce_start now s) events in
  pending (d_timers d) !! h = Some x → d_t d = Some h.
Proof.
  intros d. destruct (debounce_inv_holds fn wait now s events) as (_ & Hp & _).
  destruct x as [dl a]. intros Hh. by destruct (Hp h dl a Hh).
Qed.

(** X20. A debounced function has at most one timer pending, whatever
    happened before, and that timer is the one its [t] names. *)
Theorem debounce_one_timer {A S} (fn : A → S → S) (wait : option Z) (now : Z)
    (s : S) (events : list (debounce_event A)) :
  let d := debounce_run fn wait (debounce_start now s) events in
  (size (pending (d_timers d)) ≤ 1)%nat
  ∧ ∀ h, is_Some (pending (d_timers d) !! h) → d_t d = Some h.
Proof.
  intros d.
  pose proof (debounce_pending_owned fn wait now s events) as Hown.
  fold d in Hown. split; [by apply (pending_at_most_one _ (d_t d))|].
  intros h [x Hh]. by eapply Hown.
Qed.

(** X21. When the timer of a debounced function fires, it applies [fn] to
    the arguments of the last call, and that call is at least [wait]
    milliseconds old. *)
Theorem debounce_quiet_period {A S} (fn : A → S → S) (wait : option Z)
    (now : Z) (s : S) (events : list (debounce_event A)) (h : nat) (args : A)
    (tm : timers A) :
  let d := debounce_run fn wait (debounce_start now s) events in
  due h (d_now d) (d_timers d) = Some (args, tm) →
  ∃ T0, last_invoke now events = Some (T0, args)
        ∧ T0 + Z.max 0 (default 300 wait) <= d_now d.
Proof.
  intros d. destruct (debounce_inv_holds fn wait now s events) as (_ & Hp & _).
  fold d in Hp. unfold due.
  destruct (pending (d_timers d) !! h) as [[dl a]|] eqn:Hh; [|done].
  destruct (Z.leb_spec dl (d_now d)) as [Hdue|]; [|done]. intros [= -> <-].
  destruct (Hp h dl args Hh) as (_ & T0 & Hlast & ->). by exists T0.
Qed.

(** X22. [fn] runs at most as many times as the debounced function was
    called. *)
Theorem debounce_runs_bounded {A S} (fn : A → S → S) (wait : option Z)
    (now : Z) (s : S) (events : list (debounce_event A)) :
  (length (d_ran (debounce_run fn wait (debounce_start now s) events))
   ≤ invocations events)%nat.
Proof.
  destruct (debounce_inv_holds fn wait now s events) as (_ & _ & Hcount). lia.
Qed.

(** X23. After a call and [wait] milliseconds without another, the timer is
    due: it applies [fn] to the arguments of that call, and no timer is
    left. *)
Theorem debounce_after_quiet {A S} (fn : A → S → S) (wait : option Z)
    (now : Z) (s : S) (events : list (debounce_event A)) (args : A) (ms : nat) :
  Z.max 0 (default 300 wait) <= Z.of_nat ms →
  let d1 := debounce_run fn wait (debounce_start now s)
              (events ++ [Invoke args; Elapse ms]) in
  ∃ h, d_t d1 = Some h
       ∧ let d2 := debounce_step fn wait d1 (TimerDue h) in
         d_state d2 = fn args (d_state d1)
         ∧ d_ran d2 = (d_now d1, args) :: d_ran d1
         ∧ pending (d_timers d2) = ∅.
Proof.
  intros Hms d1. unfold d1.
  change [Invoke args; Elapse ms] with ([Invoke args] ++ [Elapse ms]).
  rewrite app_assoc, (debounce_run_snoc fn wait _ (events ++ [Invoke args])).
  rewrite (debounce_run_snoc fn wait _ events).
  set (d0 := debounce_run fn wait (debounce_start now s) events).
  pose proof (debounce_pending_owned fn wait now s events) as Hown0.
  fold d0 in Hown0.
  assert (Hclear : pending (clearTimeout (d_t d0) (d_timers d0)) = ∅).
  { destruct (pending_at_most_one (pending (d_timers d0)) (d_t d0) Hown0)
      as [_ Hdel].
    destruct (d_t d0) as [h|] eqn:Ht; simpl; [by apply Hdel|].
    apply map_empty. intros k.
    destruct (pending (d_timers d0) !! k) as [x|] eqn:Hk; [|done].
    pose proof (Hown0 k x Hk). congruence. }
  exists (next_handle (d_timers d0)).
  cbn [debounce_step debounce setTimeout d_t d_now d_timers d_state d_ran].
  split; [by destruct (d_t d0)|].
  assert (next_handle (clearTimeout (d_t d0) (d_timers d0))
          = next_handle (d_timers d0)) as Hnext by by destruct (d_t d0).
  rewrite Hnext, Hclear. unfold due; cbn [pending next_handle].
  rewrite lookup_insert_eq.
  rewrite (proj2 (Z.leb_le _ _)) by lia.
  cbn [d_state d_ran d_timers pending]. repeat split.
  by rewrite delete_insert_eq.
Qed.


Lemma debounce_quiet_period_witness :
  ∃ T0, last_invoke 0 sample_keys = Some (T0, "gu")
        ∧ T0 + Z.max 0 (default 300 (Some 250))
          <= d_now (debounce_run cons (Some 250) (debounce_start 0 []) sample_keys).
Proof.
  apply (debounce_quiet_period cons (Some 250) 0 [] sample_keys 2 "gu"
           (Timers 3 ∅)).
  by vm_compute.
Defined.

Lemma debounce_after_quiet_witness :
  ∃ h, d_t (debounce_run cons (Some 250) (debounce_start 0 [])
              (sample_keys ++ [Invoke "gui"; Elapse 250])) = Some h
       ∧ let d1 := debounce_run cons (Some 250) (debounce_start 0 [])
                     (sample_keys ++ [Invoke "gui"; Elapse 250]) in
         let d2 := debounce_step cons (Some 250) d1 (TimerDue h) in
         d_state d2 = "gui" :: d_state d1
         ∧ d_ran d2 = (d_now d1, "gui") :: d_ran d1
         ∧ pending (d_timers d2) = ∅.
Proof.
  apply (debounce_after_quiet cons (Some 250) 0 [] sample_keys "gui" 250).
  by vm_compute.
Defined.

(** ** The page at work *)

Lemma page_run_snoc w events e :
  page_run w (events ++ [e]) = page_step (page_run w events) e.
Proof. unfold page_run. by rewrite foldl_app. Qed.

Lemma renderVideos_up_to_date st : up_to_date (renderVideos st).
Proof. done. Qed.

Lemma clickChip_up_to_date i u :
  up_to_date (ui_app u) → up_to_date (ui_app (clickChip i u)).
Proof.
  intros Hu. unfold clickChip. destruct (categoryList u !! i); [|done].
  apply renderVideos_up_to_date.
Qed.

Lemma owned_delete (m : gmap nat (Z * unit)) (t : option nat) h x :
  (∀ k y, m !! k = Some y → t = Some k) → m !! h = Some x → delete h m = ∅.
Proof.
  intros Hown Hh. apply map_empty. intros k.
  destruct (decide (h = k)) as [->|Hne]; [by rewrite lookup_delete_eq|].
  rewrite lookup_delete_ne by done.
  destruct (m !! k) as [y|] eqn:Hk; [|done].
  pose proof (Hown h x Hh). pose proof (Hown k y Hk). congruence.
Qed.

Lemma owned_clear (tm : timers unit) (t : option nat) :
  (∀ k y, pending tm !! k = Some y → t = Some k) →
  pending (clearTimeout t tm) = ∅.
Proof.
  intros Hown. destruct t as [h|]; simpl.
  - destruct (pending tm !! h) as [x|] eqn:Hh; [by eapply owned_delete|].
    rewrite delete_id by done. apply map_empty. intros k.
    destruct (pending tm !! k) as [y|] eqn:Hk; [|done].
    pose proof (Hown k y Hk). congruence.
  - apply map_empty. intros k.
    destruct (pending tm !! k) as [y|] eqn:Hk; [|done].
    by pose proof (Hown k y Hk).
Qed.

Lemma page_step_settled w e : settled w → settled (page_step w e).
Proof.
  intros [Hown Hidle]. destruct e as [|value|key| |i|h|ms]; simpl.
  - done.
  - unfold onSearchChange, debounce, setTimeout; simpl. split.
    + intros h x. rewrite (owned_clear _ _ Hown). simpl.
      intros [[<- _]|[_ Hh]]%lookup_insert_Some;
        [done|by rewrite lookup_empty in Hh].
    + simpl. intros Hempty.
      apply (f_equal (λ m, m !! next_handle (clearTimeout (w_t w) (w_timers w))))
        in Hempty.
      by rewrite lookup_insert_eq, lookup_empty in Hempty.
  - case_decide; [|done]. split; [done|]. intros _. apply renderVideos_up_to_date.
  - split; [done|]. intros _. apply renderVideos_up_to_date.
  - split; [done|]. intros Hempty. simpl. apply clickChip_up_to_date. auto.
  - unfold due. destruct (pending (w_timers w) !! h) as [[dl []]|] eqn:Hh; [|done].
    destruct (dl <=? w_now w); [|done]. simpl.
    rewrite (owned_delete _ _ _ _ Hown Hh). split.
    + intros k y Hk. simpl in Hk. by rewrite lookup_empty in Hk.
    + intros _. apply renderVideos_up_to_date.
  - done.
Qed.

Lemma page_run_settled w events : settled w → settled (page_run w events).
Proof.
  intros Hw. induction events as [|e events IH] using rev_ind; [done|].
  rewrite page_run_snoc. by apply page_step_settled.
Qed.

(** X24. Whatever the user does on the page, at most one search timer is
    pending, and when none is, the grid shows the results for the current
    category and search text. *)
Theorem grid_up_to_date_when_idle (w : world) (events : list page_event) :
  settled w →
  let w' := page_run w events in
  (size (pending (w_timers w')) ≤ 1)%nat
  ∧ (pending (w_timers w') = ∅ → up_to_date (ui_app (w_ui w'))).
Proof.
  intros Hw w'. destruct (page_run_settled w events Hw) as [Hown Hidle].
  split; [|done]. by apply (pending_at_most_one _ (w_t w')).
Qed.

Lemma sample_world_settled : settled sample_world.
Proof.
  split; [|done]. intros h x Hh. by vm_compute in Hh.
Qed.

Lemma grid_up_to_date_when_idle_witness :
  let w' := page_run sample_world
              [SearchInput "gu"; TimePasses 100; SearchInput "guitar";
               ChipClick 1; TimePasses 250; TimerFires 2] in
  (size (pending (w_timers w')) ≤ 1)%nat
  ∧ (pending (w_timers w') = ∅ → up_to_date (ui_app (w_ui w'))).
Proof. apply grid_up_to_date_when_idle, sample_world_settled. Defined.

(** X25. Text typed into the search field is not rendered at once; 250
    milliseconds later the timer of [onSearchChange] is due, and it renders
    the grid for that text and leaves no timer. *)
Theorem typed_text_is_rendered (w : world) (value : string) (ms : nat) :
  settled w → 250 <= Z.of_nat ms →
  let w1 := page_run w [SearchInput value; TimePasses ms] in
  ∃ h, w_t w1 = Some h
       ∧ ui_app (w_ui w1) = set_searchInput_value value (ui_app (w_ui w))
       ∧ let w2 := page_step w1 (TimerFires h) in
         ui_app (w_ui w2)
         = renderVideos (set_searchInput_value value (ui_app (w_ui w)))
         ∧ pending (w_timers w2) = ∅.
Proof.
  intros [Hown _] Hms. simpl.
  unfold onSearchChange, debounce, setTimeout; simpl.
  eexists. split; [done|]. split; [done|].
  unfold due; simpl. rewrite lookup_insert_eq.
  rewrite (proj2 (Z.leb_le _ _)) by lia. simpl. split; [done|].
  by rewrite (owned_clear _ _ Hown), delete_insert_eq.
Qed.

Lemma typed_text_is_rendered_witness :
  let w1 := page_run sample_world [SearchInput "guitar"; TimePasses 250] in
  ∃ h, w_t w1 = Some h
       ∧ ui_app (w_ui w1) = set_searchInput_value "guitar" (ui_app (w_ui sample_world))
       ∧ let w2 := page_step w1 (TimerFires h) in
         ui_app (w_ui w2)
         = renderVideos (set_searchInput_value "guitar" (ui_app (w_ui sample_world)))
         ∧ pending (w_timers w2) = ∅.
Proof.
  apply typed_text_is_rendered; [apply sample_world_settled|lia].
Defined.

Lemma page_step_frame w e :
  chips_consistent (w_ui w) → selectedCategory (ui_app (w_ui w)) ∈ CATEGORIES →
  videos (ui_app (w_ui (page_step w e))) = videos (ui_app (w_ui w))
  ∧ chips_consistent (w_ui (page_step w e))
  ∧ selectedCategory (ui_app (w_ui (page_step w e))) ∈ CATEGORIES.
Proof.
  intros Hcons Hsel. destruct e as [|value|key| |i|h|ms]; simpl; try done.
  - case_decide; done.
  - split; [|split; [by apply clickChip_consistent|]].
    + unfold clickChip. by destruct (categoryList (w_ui w) !! i).
    + destruct (categoryList (w_ui w) !! i) as [btn|] eqn:Hbtn;
        [|unfold clickChip; by rewrite Hbtn].
      rewrite (clickChip_app _ i btn Hbtn). simpl.
      destruct Hcons as [<- _]. apply list_elem_of_fmap. exists btn.
      split; [done|]. by eapply list_elem_of_lookup_2.
  - destruct (due h (w_now w) (w_timers w)) as [[[] tm]|]; done.
Qed.

(** X26. No event on the page changes the list of videos, and the chip bar
    stays in step with the selected category, which stays one of
    [CATEGORIES]. *)
Theorem videos_and_chips_invariant (w : world) (events : list page_event) :
  chips_consistent (w_ui w) → selectedCategory (ui_app (w_ui w)) ∈ CATEGORIES →
  videos (ui_app (w_ui (page_run w events))) = videos (ui_app (w_ui w))
  ∧ chips_consistent (w_ui (page_run w events))
  ∧ selectedCategory (ui_app (w_ui (page_run w events))) ∈ CATEGORIES.
Proof.
  intros Hcons Hsel. induction events as [|e events IH] using rev_ind; [done|].
  rewrite page_run_snoc. destruct IH as (Hvideos & Hcons' & Hsel').
  destruct (page_step_frame (page_run w events) e Hcons' Hsel') as (-> & ? & ?).
  done.
Qed.

Lemma videos_and_chips_invariant_witness :
  videos (ui_app (w_ui (page_run sample_world
            [ChipClick 2; SearchInput "beat"; ThemeToggleClick; SearchBtnClick])))
  = videos (ui_app (w_ui sample_world))
  ∧ chips_consistent (w_ui (page_run sample_world
            [ChipClick 2; SearchInput "beat"; ThemeToggleClick; SearchBtnClick]))
  ∧ selectedCategory (ui_app (w_ui (page_run sample_world
            [ChipClick 2; SearchInput "beat"; ThemeToggleClick; SearchBtnClick])))
    ∈ CATEGORIES.
Proof.
  apply videos_and_chips_invariant.
  - exact (renderCategories_chips
             (Ui (App "All" (generateVideos VIDEO_COUNT sample_random 0%nat).1
                      "" []) [])).
  - by left.
Defined.

Lemma toggle_clicks_snoc (events : list page_event) e :
  toggle_clicks (events ++ [e])
  = (toggle_clicks events + if is_toggle_click e then 1 else 0)%nat.
Proof.
  unfold toggle_clicks. rewrite filter_app, length_app. f_equal.
  by destruct e.
Qed.

(** X27. Among the events on the page the clicks on the theme button alone
    change the theme: after an even number of them the page shows the
    theme it started with, after an odd number the other one. *)
Theorem page_theme_invariant (w : world) (t : string) (events : list page_event) :
  themed t (w_page w) →
  themed (if Nat.even (toggle_clicks events) then t else other_theme t)
         (w_page (page_run w events)).
Proof.
  intros Ht. induction events as [|e events IH] using rev_ind; [done|].
  rewrite page_run_snoc, toggle_clicks_snoc.
  destruct e as [|value|key| |i|h|ms]; cbn [is_toggle_click];
    rewrite ?Nat.add_0_r; try exact IH.
  - rewrite Nat.add_1_r, Nat.even_succ, <-Nat.negb_even.
    simpl. destruct (toggleTheme_themed _ _ IH) as (p' & -> & Hp' & _).
    destruct (Nat.even (toggle_clicks events)); simpl; [done|].
    destruct Ht as (Ht & _).
    by rewrite (proj2 (other_theme_known t Ht)) in Hp'.
  - simpl. by case_decide.
  - simpl. by destruct (due h (w_now _) (w_timers _)) as [[[] tm]|].
Qed.

Lemma page_theme_invariant_witness :
  themed (if Nat.even (toggle_clicks [ThemeToggleClick; SearchInput "a";
                                      ThemeToggleClick; ThemeToggleClick])
          then "light" else other_theme "light")
         (w_page (page_run sample_world
                    [ThemeToggleClick; SearchInput "a"; ThemeToggleClick;
                     ThemeToggleClick])).
Proof.
  apply (page_theme_invariant sample_world "light").
  unfold themed. repeat split; [by left|..]; by vm_compute.
Defined.

(** ** Initialization *)

Lemma generateVideos_length random count n :
  length (generateVideos count random n).1 = Z.to_nat count.
Proof. by rewrite generateVideos_turns, length_fmap, length_seq. Qed.

(** [init] from the saved theme on, when [applyTheme] returns. *)
Lemma init_Started random w p :
  applyTheme (savedTheme (w_page w)) (w_page w) = Normal p →
  init random w
  = Started
      (World p
         (with_app renderVideos
            (renderCategories
               (Ui (App (selectedCategory (ui_app (w_ui w)))
                        (generateVideos VIDEO_COUNT random 0%nat).1
                        (searchInput_value (ui_app (w_ui w)))
                        (videosGrid (ui_app (w_ui w))))
                   (categoryList (w_ui w)))))
         (w_now w) (w_t w) (w_timers w))
      (generateVideos VIDEO_COUNT random 0%nat).2.
Proof.
  intros Hp. unfold init. rewrite Hp.
  by destruct (generateVideos VIDEO_COUNT random 0%nat).
Qed.

(** X28. With a saved theme that is light or dark, or none, [init] returns:
    the page shows that theme, 36 videos were generated with 360 calls of
    [Math.random], "All" is selected, the chip bar is in step, no timer is
    pending, and the grid shows the results, which are all videos when the
    search field is empty. *)
Theorem init_starts (random : nat → double) (p : page) (value : string)
    (grid : list element) (chips : list chip) (now : Z) :
  savedTheme p = "light" ∨ savedTheme p = "dark" →
  ∃ w calls,
    init random (loaded p value grid chips now) = Started w calls
    ∧ themed (savedTheme p) (w_page w)
    ∧ videos (ui_app (w_ui w)) = (generateVideos VIDEO_COUNT random 0%nat).1
    ∧ length (videos (ui_app (w_ui w))) = 36%nat
    ∧ calls = 360%nat
    ∧ selectedCategory (ui_app (w_ui w)) = "All"
    ∧ searchInput_value (ui_app (w_ui w)) = value
    ∧ chips_consistent (w_ui w)
    ∧ settled w
    ∧ pending (w_timers w) = ∅
    ∧ (value = "" →
       videosGrid (ui_app (w_ui w))
       = (createVideoCard <$> videos (ui_app (w_ui w)))).
Proof.
  intros Hsaved.
  destruct (applyTheme_themed (savedTheme p) p Hsaved) as (p' & Hp' & Hthemed & _).
  rewrite (init_Started random (loaded p value grid chips now) p' Hp').
  pose proof (generateVideos_length random VIDEO_COUNT 0) as Hlen.
  pose proof (generateVideos_loop_calls random (Z.to_nat VIDEO_COUNT) 0 [] 0)
    as Hcalls.
  fold (generateVideos VIDEO_COUNT) in Hcalls.
  destruct (generateVideos VIDEO_COUNT random 0%nat) as [generated calls].
  simpl in Hlen, Hcalls. eexists _, _. split; [done|]. simpl.
  split; [done|]. split; [done|]. split; [done|]. split; [done|].
  split; [done|]. split; [done|].
  split.
  { exact (renderCategories_chips
             (Ui (App "All" generated value grid) chips)). }
  split; [by split|]. split; [done|].
  intros ->. unfold visibleVideos; simpl.
  change (filterVideosByQuery generated "") with generated.
  rewrite decide_False; [done|]. by rewrite Hlen.
Qed.

Lemma init_starts_witness :
  ∃ w calls,
    init sample_random (loaded blank_page "" [] [] 0) = Started w calls
    ∧ themed (savedTheme blank_page) (w_page w)
    ∧ videos (ui_app (w_ui w))
      = (generateVideos VIDEO_COUNT sample_random 0%nat).1
    ∧ length (videos (ui_app (w_ui w))) = 36%nat
    ∧ calls = 360%nat
    ∧ selectedCategory (ui_app (w_ui w)) = "All"
    ∧ searchInput_value (ui_app (w_ui w)) = ""
    ∧ chips_consistent (w_ui w)
    ∧ settled w
    ∧ pending (w_timers w) = ∅
    ∧ ("" = "" →
       videosGrid (ui_app (w_ui w))
       = (createVideoCard <$> videos (ui_app (w_ui w)))).
Proof. apply init_starts. by left. Defined.

(** X29. With a saved theme that [THEMES] does not know, [init] throws in
    [applyTheme]: the attribute is set, and no video, no chip and no card
    is made. *)
Theorem init_aborts (random : nat → double) (p : page) (value : string)
    (grid : list element) (chips : list chip) (now : Z) :
  savedTheme p ≠ "light" → savedTheme p ≠ "dark" →
  savedTheme p ∉ Object_prototype →
  ∃ p',
    init random (loaded p value grid chips now)
    = Aborted (World p' (Ui (App "All" [] value grid) chips) now None
                     (Timers 1 ∅))
    ∧ data_theme p' = Some (savedTheme p)
    ∧ themeToggle_textContent p' = themeToggle_textContent p
    ∧ themeToggle_title p' = themeToggle_title p
    ∧ localStorage p' = localStorage p.
Proof.
  intros Hl Hd Hproto. eexists. split.
  { unfold init, loaded; cbn [w_page]. unfold applyTheme, THEMES.
    by rewrite !decide_False by done. }
  done.
Qed.


Lemma init_aborts_witness :
  ∃ p',
    init sample_random (loaded stale_page "" [] [] 0)
    = Aborted (World p' (Ui (App "All" [] "" []) []) 0 None (Timers 1 ∅))
    ∧ data_theme p' = Some (savedTheme stale_page)
    ∧ themeToggle_textContent p' = themeToggle_textContent stale_page
    ∧ themeToggle_title p' = themeToggle_title stale_page
    ∧ localStorage p' = localStorage stale_page.
Proof.
  apply (init_aborts sample_random stale_page "" [] [] 0); [done..|].
  apply (bool_decide_eq_false_1 _). by vm_compute.
Defined.

(** X30. A page that starts from the store of a page that showed a theme
    throughout shows that theme again, with the same attribute, icon and
    label. *)
Theorem theme_survives_reload (random : nat → double) (t : string)
    (before document : page) (value : string) (grid : list element)
    (chips : list chip) (now : Z) :
  themed t before → localStorage document = localStorage before →
  ∃ w calls,
    init random (loaded document value grid chips now) = Started w calls
    ∧ themed t (w_page w)
    ∧ data_theme (w_page w) = data_theme before
    ∧ themeToggle_textContent (w_page w) = themeToggle_textContent before
    ∧ themeToggle_title (w_page w) = themeToggle_title before.
Proof.
  intros (Ht & Hattr & Hth & Hstore) Hsame.
  assert (Hsaved : savedTheme document = t).
  { unfold savedTheme. rewrite Hsame, Hstore. by destruct Ht as [-> | ->]. }
  destruct (applyTheme_known t document Ht) as (icon & label & Hth' & Hp').
  rewrite <-Hsaved in Hp' at 1.
  rewrite (init_Started random (loaded document value grid chips now) _ Hp').
  eexists _, _. split; [done|]. simpl. rewrite Hth in Hth'.
  injection Hth' as <- <-. split; [|by rewrite Hattr].
  unfold themed; simpl. by rewrite lookup_insert_eq.
Qed.

Lemma theme_survives_reload_witness :
  ∃ w calls,
    init sample_random
      (loaded (Page None "" "" (localStorage (page_of (applyTheme "dark" blank_page))))
              "" [] [] 0) = Started w calls
    ∧ themed "dark" (w_page w)
    ∧ data_theme (w_page w) = data_theme (page_of (applyTheme "dark" blank_page))
    ∧ themeToggle_textContent (w_page w)
      = themeToggle_textContent (page_of (applyTheme "dark" blank_page))
    ∧ themeToggle_title (w_page w)
      = themeToggle_title (page_of (applyTheme "dark" blank_page)).
Proof.
  apply theme_survives_reload; [|done].
  unfold themed. repeat split; [by right|..]; by vm_compute.
Defined.
